(** * Malmo logger (Malmo/src/Logger.h): a shallow embedding and its properties

    The logger buffers formatted lines in a vector guarded by a timed mutex;
    a background thread drains the vector to a file or to the console.  The
    embedding follows one thread at a time: every member function of
    [malmo::Logger] is a function on the logger's fields, and everything a
    call does to the outside world (mutex operations, stream writes, opening
    and closing the file, sleeping, detaching the thread) is appended to a
    chronological [trace].

    What other threads and the host do is an input: the time stamp a [print]
    reads, whether [std::ofstream::open] succeeds for a path, and what the
    destructor observes each time it polls the clock and [has_backend]. *)

From Stdlib Require Import ZArith List String Ascii Bool Lia.
From Stdlib Require Import DecimalString.
Import ListNotations.

Open Scope Z_scope.
Open Scope list_scope.

(** ** Severity levels *)

(** [enum LoggingSeverityLevel], in declaration order. *)
Inductive LoggingSeverityLevel : Type :=
| LOG_OFF
| LOG_ERRORS
| LOG_WARNINGS
| LOG_INFO
| LOG_FINE
| LOG_TRACE
| LOG_ALL.

(** The enumerator values the compiler assigns: 0 for the first, then +1. *)
Definition level_value (l : LoggingSeverityLevel) : Z :=
  match l with
  | LOG_OFF => 0
  | LOG_ERRORS => 1
  | LOG_WARNINGS => 2
  | LOG_INFO => 3
  | LOG_FINE => 4
  | LOG_TRACE => 5
  | LOG_ALL => 6
  end.

(** ** Strings *)

Definition newline : ascii := "010"%char.

(** What [std::endl] puts on the stream. *)
Definition endl : string := String newline EmptyString.

(** [str.erase(std::remove(str.begin(), str.end(), c), str.end())]. *)
Fixpoint remove_char (c : ascii) (str : string) : string :=
  match str with
  | EmptyString => EmptyString
  | String a rest =>
      if Ascii.eqb a c then remove_char c rest
      else String a (remove_char c rest)
  end.

(** Does the string hold the character? *)
Fixpoint contains_char (c : ascii) (str : string) : bool :=
  match str with
  | EmptyString => false
  | String a rest => Ascii.eqb a c || contains_char c rest
  end.

(** [for (int i = 0; i < n; i++) message_stream << "    "], as the text the
    loop adds: nothing for [n <= 0]. *)
Fixpoint spaces4 (n : nat) : string :=
  match n with
  | O => EmptyString
  | S k => ("    " ++ spaces4 k)%string
  end.

Definition indent_text (indentation : Z) : string :=
  spaces4 (Z.to_nat indentation).

(** The [switch (level)] of [Logger::print]. *)
Definition severity_label (level : LoggingSeverityLevel) : string :=
  match level with
  | LOG_ALL | LOG_ERRORS => "ERROR   "
  | LOG_WARNINGS => "WARNING "
  | LOG_INFO => "INFO    "
  | LOG_FINE => "FINE    "
  | LOG_TRACE | LOG_OFF => "TRACE   "
  end.

(** ** Machine integers *)

(** [line_number] and [indentation] are [int]: 32 bits, two's complement. *)
Definition int_min : Z := - 2 ^ 31.
Definition int_max : Z := 2 ^ 31 - 1.

Definition in_int_range (z : Z) : Prop := int_min <= z <= int_max.

Definition wrap_int (z : Z) : Z := (z + 2 ^ 31) mod 2 ^ 32 - 2 ^ 31.

(** ** Observable effects *)

(** The calls a thread makes on [write_guard] (a [std::timed_mutex] offers
    [lock], [try_lock_for] and [unlock]), on [writer] and [std::cout], and on
    the threading library. *)
Inductive event : Type :=
| MutexLock
| MutexUnlock
| MutexTryLockFor (ms : Z) (acquired : bool)
| Sleep (ms : Z)
| FileClose (path : string)
| FileOpenAppend (path : string) (ok : bool)
| FileWrite (path : string) (text : string)
| ConsoleWrite (text : string)
| ThreadDetach.

Definition is_mutex_event (e : event) : bool :=
  match e with
  | MutexLock | MutexUnlock | MutexTryLockFor _ _ => true
  | _ => false
  end.

Definition is_timed_lock_attempt (e : event) : bool :=
  match e with
  | MutexTryLockFor _ _ => true
  | _ => false
  end.

Definition is_sink_write (e : event) : bool :=
  match e with
  | FileWrite _ _ | ConsoleWrite _ => true
  | _ => false
  end.

Definition is_console_write (e : event) : bool :=
  match e with
  | ConsoleWrite _ => true
  | _ => false
  end.

(** The text an event puts on a sink. *)
Definition written_text (e : event) : string :=
  match e with
  | FileWrite _ text | ConsoleWrite text => text
  | _ => EmptyString
  end.

(** Walks a trace with the mutex state at its start: is every sink write made
    while the mutex is free ([writes_outside_lock]), respectively while it is
    held ([writes_under_lock])? *)
Fixpoint writes_outside_lock (held : bool) (tr : list event) : bool :=
  match tr with
  | [] => true
  | MutexLock :: rest => writes_outside_lock true rest
  | MutexUnlock :: rest => writes_outside_lock false rest
  | e :: rest =>
      (if is_sink_write e then negb held else true)
      && writes_outside_lock held rest
  end.

Fixpoint writes_under_lock (held : bool) (tr : list event) : bool :=
  match tr with
  | [] => true
  | MutexLock :: rest => writes_under_lock true rest
  | MutexUnlock :: rest => writes_under_lock false rest
  | e :: rest =>
      (if is_sink_write e then held else true)
      && writes_under_lock held rest
  end.

(** ** The logger's fields *)

(** [writer] is [Some path] when [writer.is_open()], the stream having been
    opened on [path]; [write_guard] is [true] while the running thread holds
    the mutex.  [trace] is not a field of the class: it is the history of
    effects. *)
Record Logger : Type := mkLogger {
  severity_level : LoggingSeverityLevel;
  line_number : Z;
  indentation : Z;
  write_guard : bool;
  log_buffer : list string;
  has_backend : bool;
  is_spooling : bool;
  writer : option string;
  trace : list event
}.

(** [Logger()]: [severity_level{ LOG_OFF }], [line_number(0)],
    [indentation(0)], [has_backend = false], [is_spooling.clear()]. *)
Definition Logger_new : Logger :=
  mkLogger LOG_OFF 0 0 false [] false false None [].

Definition emit (e : event) (s : Logger) : Logger :=
  mkLogger (severity_level s) (line_number s) (indentation s) (write_guard s)
    (log_buffer s) (has_backend s) (is_spooling s) (writer s)
    (trace s ++ [e]).

Definition set_severity_level (l : LoggingSeverityLevel) (s : Logger) : Logger :=
  mkLogger l (line_number s) (indentation s) (write_guard s)
    (log_buffer s) (has_backend s) (is_spooling s) (writer s) (trace s).

Definition set_line_number (n : Z) (s : Logger) : Logger :=
  mkLogger (severity_level s) n (indentation s) (write_guard s)
    (log_buffer s) (has_backend s) (is_spooling s) (writer s) (trace s).

Definition set_indentation (n : Z) (s : Logger) : Logger :=
  mkLogger (severity_level s) (line_number s) n (write_guard s)
    (log_buffer s) (has_backend s) (is_spooling s) (writer s) (trace s).

Definition set_write_guard (b : bool) (s : Logger) : Logger :=
  mkLogger (severity_level s) (line_number s) (indentation s) b
    (log_buffer s) (has_backend s) (is_spooling s) (writer s) (trace s).

Definition set_log_buffer (b : list string) (s : Logger) : Logger :=
  mkLogger (severity_level s) (line_number s) (indentation s) (write_guard s)
    b (has_backend s) (is_spooling s) (writer s) (trace s).

Definition set_has_backend (b : bool) (s : Logger) : Logger :=
  mkLogger (severity_level s) (line_number s) (indentation s) (write_guard s)
    (log_buffer s) b (is_spooling s) (writer s) (trace s).

Definition set_is_spooling (b : bool) (s : Logger) : Logger :=
  mkLogger (severity_level s) (line_number s) (indentation s) (write_guard s)
    (log_buffer s) (has_backend s) b (writer s) (trace s).

Definition set_writer (w : option string) (s : Logger) : Logger :=
  mkLogger (severity_level s) (line_number s) (indentation s) (write_guard s)
    (log_buffer s) (has_backend s) (is_spooling s) w (trace s).

(** ** The mutex *)

(** [write_guard.lock()], also what constructing a [std::lock_guard] does.
    A blocked [lock] returns once the mutex is free, so on return the caller
    holds it. *)
Definition lock (s : Logger) : Logger :=
  emit MutexLock (set_write_guard true s).

(** [write_guard.unlock()], also what destroying a [std::lock_guard] does. *)
Definition unlock (s : Logger) : Logger :=
  emit MutexUnlock (set_write_guard false s).

(** ** Producers *)

(** [Logger::print_impl]: the variadic overload streams its first parameter
    and recurses on the others; the overload without parameters appends the
    stream's text to [log_buffer] under a [lock_guard].  A parameter is given
    as the text [operator<<] produces for it. *)
Fixpoint print_impl (message_stream : string) (params : list string)
  (s : Logger) : Logger :=
  match params with
  | [] =>
      let s1 := lock s in
      let s2 := set_log_buffer (log_buffer s1 ++ [message_stream]) s1 in
      unlock s2
  | param1 :: others =>
      print_impl (message_stream ++ param1)%string others s
  end.

(** What [Logger::print] has streamed when it calls [print_impl]: the time
    stamp, [" P "], the label and four spaces per level of indentation. *)
Definition line_prefix (now : string) (level : LoggingSeverityLevel)
  (indentation : Z) : string :=
  (now ++ " P " ++ severity_label level ++ indent_text indentation)%string.

(** [Logger::print<level>(args...)]; [now] is the text of
    [microsec_clock::universal_time()] as read by this call. *)
Definition print (now : string) (level : LoggingSeverityLevel)
  (args : list string) (s : Logger) : Logger :=
  if level_value level >? level_value (severity_level s) then s
  else
    let s1 := print_impl (line_prefix now level (indentation s)) args s in
    set_line_number (wrap_int (line_number s1 + 1)) s1.

(** [Logger::setSeverityLevel]. *)
Definition setSeverityLevel (level : LoggingSeverityLevel) (s : Logger) : Logger :=
  set_severity_level level s.

(** [Logger::appendToLog]: the [switch] has a case for every enumerator but
    [LOG_OFF] and no [default]. *)
Definition appendToLog (now : string) (level : LoggingSeverityLevel)
  (message : string) (s : Logger) : Logger :=
  match level with
  | LOG_ERRORS => print now LOG_ERRORS [message] s
  | LOG_WARNINGS => print now LOG_WARNINGS [message] s
  | LOG_INFO => print now LOG_INFO [message] s
  | LOG_FINE => print now LOG_FINE [message] s
  | LOG_TRACE => print now LOG_TRACE [message] s
  | LOG_ALL => print now LOG_ALL [message] s
  | LOG_OFF => s
  end.

(** [Logger::indent] and [Logger::unindent]. *)
Definition indent (s : Logger) : Logger :=
  let s1 := lock s in
  unlock (set_indentation (wrap_int (indentation s1 + 1)) s1).

Definition unindent (s : Logger) : Logger :=
  let s1 := lock s in
  unlock (set_indentation (wrap_int (indentation s1 - 1)) s1).

(** [LogSection<level>]: the constructor enters the section, the destructor
    leaves it.  Each [print] reads the clock once. *)
Definition LogSection_enter (now1 now2 : string) (level : LoggingSeverityLevel)
  (title : string) (s : Logger) : Logger :=
  let s1 := print now1 level [title] s in
  let s2 := print now2 level ["{"%string] s1 in
  indent s2.

Definition LogSection_exit (now : string) (level : LoggingSeverityLevel)
  (s : Logger) : Logger :=
  let s1 := unindent s in
  print now level ["}"%string] s1.

(** ** The sink *)

(** [Logger::performWrite]: a copy of the line without its newlines, then
    [std::endl], on [writer] when it is open and on [std::cout] when not. *)
Definition performWrite (logline : string) (s : Logger) : Logger :=
  let str := remove_char newline logline in
  match writer s with
  | Some path => emit (FileWrite path (str ++ endl)%string) s
  | None => emit (ConsoleWrite (str ++ endl)%string) s
  end.

(** The [for (auto& item : this->log_buffer)] loop of [clear_backlog]. *)
Fixpoint write_items (items : list string) (s : Logger) : Logger :=
  match items with
  | [] => s
  | item :: rest => write_items rest (performWrite item s)
  end.

(** [Logger::clear_backlog]. *)
Definition clear_backlog (s : Logger) : Logger :=
  set_log_buffer [] (write_items (log_buffer s) s).

(** [Logger::setFilename]; [can_open file] is whether the host lets
    [writer.open(file, out | app)] succeed.  [std::ofstream] throws nothing
    (its exception mask is empty), and the function returns [void]: a failed
    [open] only leaves the stream closed. *)
Definition setFilename (can_open : string -> bool) (file : string)
  (s : Logger) : Logger :=
  let s1 :=
    match writer s with
    | Some old => emit (FileClose old) (set_writer None s)
    | None => s
    end in
  if can_open file
  then emit (FileOpenAppend file true) (set_writer (Some file) s1)
  else emit (FileOpenAppend file false) (set_writer None s1).

(** [Logger::setLogging]. *)
Definition setLogging (can_open : string -> bool) (filename : string)
  (level : LoggingSeverityLevel) (s : Logger) : Logger :=
  setSeverityLevel level (setFilename can_open filename s).

(** ** The spooling thread *)

(** The body of the [do ... while] of [log_spooler] after its sleep: when
    the buffer holds something, lock, [clear_backlog], unlock. *)
Definition spool_drain (s : Logger) : Logger :=
  match log_buffer s with
  | [] => s
  | _ :: _ => unlock (clear_backlog (lock s))
  end.

(** One iteration of the loop of [log_spooler]. *)
Definition spool_iteration (s : Logger) : Logger :=
  spool_drain (emit (Sleep 100) s).

(** [~Logger] up to its wait: logging off, [is_spooling.clear()]. *)
Definition dtor_begin (s : Logger) : Logger :=
  set_is_spooling false (set_severity_level LOG_OFF s).

(** The [do ... while (logger->is_spooling.test_and_set())] of
    [log_spooler].  Each element of [rounds] is what the other threads do
    while the spooler sleeps: the lines the producers push on the buffer, and
    whether [~Logger] gets to clear [is_spooling].  [test_and_set] sets the
    flag and the loop goes on when it was set before.  The boolean of the
    result says whether the thread is still in the loop when [rounds] is
    over. *)
Fixpoint spool_loop (rounds : list (list string * bool)) (s : Logger)
  : Logger * bool :=
  match rounds with
  | [] => (s, true)
  | (lines, stop) :: rest =>
      let s1 := emit (Sleep 100) s in
      let s2 := set_log_buffer (log_buffer s1 ++ lines) s1 in
      let s3 := if stop then dtor_begin s2 else s2 in
      let s4 := spool_drain s3 in
      let s5 := set_is_spooling true s4 in
      if is_spooling s4 then spool_loop rest s5 else (s5, false)
  end.

(** [Logger::log_spooler]: announce the thread, spool until the flag is found
    clear, tell the logger, and sleep for good. *)
Definition log_spooler (rounds : list (list string * bool)) (s : Logger)
  : Logger :=
  let s0 := set_is_spooling true (set_has_backend true s) in
  match spool_loop rounds s0 with
  | (s1, true) => s1
  | (s1, false) => emit (Sleep 100000) (set_has_backend false s1)
  end.

(** ** Teardown *)

(** [std::chrono::system_clock::duration::count()] is a number of clock
    ticks.  The tick is the library's choice: [ticks_per_second] is 10^7 with
    Visual C++, 10^9 with libstdc++ and 10^6 with libc++. *)
Definition seconds_to_ticks (ticks_per_second seconds : Z) : Z :=
  seconds * ticks_per_second.

(** The condition of the [while] of [~Logger], at a poll where [has_backend]
    reads [backend] and the clock reads [now]. *)
Definition keep_waiting (start : Z) (backend : bool) (now : Z) : bool :=
  backend && (now - start <? 2).

(** The [while (...);] of [~Logger].  [backend_at k] and [clock_at k] are
    what the [k]-th evaluation of the condition reads.  The result is the
    evaluation that found the condition false; [None] when [fuel]
    evaluations all found it true. *)
Fixpoint dtor_wait (fuel : nat) (start : Z) (backend_at : nat -> bool)
  (clock_at : nat -> Z) (k : nat) : option nat :=
  match fuel with
  | O => None
  | S fuel' =>
      if keep_waiting start (backend_at k) (clock_at k)
      then dtor_wait fuel' start backend_at clock_at (S k)
      else Some k
  end.

(** [~Logger] after its wait: [clear_backlog()] with no lock taken, detach,
    close the file when it is open. *)
Definition dtor_finish (s : Logger) : Logger :=
  let s1 := clear_backlog s in
  let s2 := emit ThreadDetach s1 in
  match writer s2 with
  | Some path => emit (FileClose path) (set_writer None s2)
  | None => s2
  end.

(** [~Logger].  [start] is the clock when the wait begins and [worker] is
    what the spooling thread did to the logger during the wait. *)
Definition Logger_dtor (fuel : nat) (start : Z) (backend_at : nat -> bool)
  (clock_at : nat -> Z) (worker : Logger -> Logger) (s : Logger)
  : option Logger :=
  let s1 := dtor_begin s in
  match dtor_wait fuel start backend_at clock_at 0 with
  | None => None
  | Some _ => Some (dtor_finish (worker s1))
  end.

(** ** Runs of calls *)

(** The calls that leave [writer] alone. *)
Inductive call : Type :=
| CallPrint (now : string) (level : LoggingSeverityLevel) (args : list string)
| CallAppendToLog (now : string) (level : LoggingSeverityLevel) (message : string)
| CallSetSeverityLevel (level : LoggingSeverityLevel)
| CallEnterSection (now1 now2 : string) (level : LoggingSeverityLevel) (title : string)
| CallExitSection (now : string) (level : LoggingSeverityLevel)
| CallSpoolIteration
| CallClearBacklog.

Definition do_call (c : call) (s : Logger) : Logger :=
  match c with
  | CallPrint now level args => print now level args s
  | CallAppendToLog now level message => appendToLog now level message s
  | CallSetSeverityLevel level => setSeverityLevel level s
  | CallEnterSection now1 now2 level title =>
      LogSection_enter now1 now2 level title s
  | CallExitSection now level => LogSection_exit now level s
  | CallSpoolIteration => spool_iteration s
  | CallClearBacklog => clear_backlog s
  end.

Fixpoint do_calls (cs : list call) (s : Logger) : Logger :=
  match cs with
  | [] => s
  | c :: rest => do_calls rest (do_call c s)
  end.

(** The events of [s'] that [s] does not have yet. *)
Definition new_events (s s' : Logger) : list event :=
  skipn (List.length (trace s)) (trace s').

(** The texts of a list, one after the other. *)
Fixpoint concat_args (args : list string) : string :=
  match args with
  | [] => EmptyString
  | a :: rest => (a ++ concat_args rest)%string
  end.

(** The text of a finished line: prefix, then the arguments in order. *)
Definition format_line (now : string) (level : LoggingSeverityLevel)
  (indentation : Z) (args : list string) : string :=
  (line_prefix now level indentation ++ concat_args args)%string.

(** A buffered line as a record of the sink: no newline inside, one at the
    end. *)
Definition sink_record (logline : string) : string :=
  (remove_char newline logline ++ endl)%string.

(** The event [performWrite] makes for a line when the sink is [w]. *)
Definition write_event (w : option string) (logline : string) : event :=
  match w with
  | Some path => FileWrite path (sink_record logline)
  | None => ConsoleWrite (sink_record logline)
  end.

(** All the text a trace puts on the sinks, in order. *)
Definition sink_text (tr : list event) : string :=
  concat_args (map written_text (filter is_sink_write tr)).

(** The mutex state a trace leaves, from the state at its start. *)
Fixpoint lock_after (held : bool) (tr : list event) : bool :=
  match tr with
  | [] => held
  | MutexLock :: rest => lock_after true rest
  | MutexUnlock :: rest => lock_after false rest
  | _ :: rest => lock_after held rest
  end.

(** Is every sink write of the trace a write on the console? *)
Definition console_only (tr : list event) : bool :=
  forallb (fun e => implb (is_sink_write e) (is_console_write e)) tr.

(** Is no line of the buffer holding a newline? *)
Definition newline_free (lines : list string) : bool :=
  forallb (fun l => negb (contains_char newline l)) lines.

(** An operation that leaves [writer] as it is and, when no file is open,
    writes on the console only. *)
Definition keeps_sink (f : Logger -> Logger) : Prop :=
  forall s : Logger,
    writer (f s) = writer s /\
    exists tr : list event,
      trace (f s) = trace s ++ tr /\
      (writer s = None -> console_only tr = true).

(** ** Lifetime tracking *)

(** The text [operator<<] gives an [int]: decimal, with a minus sign. *)
Definition int_text (z : Z) : string := NilZero.string_of_int (Z.to_int z).

(** What the tracker works on: its static [object_count] (a
    [std::atomic<int>]) and the logger singleton. *)
Record Process : Type := mkProcess {
  object_count : Z;
  the_logger : Logger
}.

(** [LoggerLifetimeTracker::addref]: [fetch_add(1)], then [LOGFINE] of the
    name and of [prev_val + 1]. *)
Definition addref (now name : string) (p : Process) : Process :=
  let prev_val := object_count p in
  mkProcess (wrap_int (prev_val + 1))
    (print now LOG_FINE
       ["Constructing "%string; name; " (object count now "%string;
        int_text (wrap_int (prev_val + 1)); ")"%string]
       (the_logger p)).

(** [~LoggerLifetimeTracker]: [fetch_add(-1)], then [LOGFINE] of the name and
    of [prev_val - 1]. *)
Definition release (now name : string) (p : Process) : Process :=
  let prev_val := object_count p in
  mkProcess (wrap_int (prev_val + -1))
    (print now LOG_FINE
       ["Destructing "%string; name; " (object count now "%string;
        int_text (wrap_int (prev_val - 1)); ")"%string]
       (the_logger p)).

(** The three special members of [LoggerLifetimeTracker]; the copy takes the
    name of the object it copies. *)
Inductive tracker_op : Type :=
| TrackerNew (now name : string)
| TrackerCopy (now rhs_name : string)
| TrackerDelete (now name : string).

Definition do_tracker_op (o : tracker_op) (p : Process) : Process :=
  match o with
  | TrackerNew now name => addref now name p
  | TrackerCopy now rhs_name => addref now rhs_name p
  | TrackerDelete now name => release now name p
  end.

Fixpoint do_tracker_ops (os : list tracker_op) (p : Process) : Process :=
  match os with
  | [] => p
  | o :: rest => do_tracker_ops rest (do_tracker_op o p)
  end.

(** Objects made less objects destroyed. *)
Fixpoint live_objects (os : list tracker_op) : Z :=
  match os with
  | [] => 0
  | TrackerDelete _ _ :: rest => live_objects rest - 1
  | _ :: rest => live_objects rest + 1
  end.

(** ** Runs with a change of sink *)

Inductive action : Type :=
| ActCall (c : call)
| ActSetFilename (file : string)
| ActSetLogging (file : string) (level : LoggingSeverityLevel).

Definition do_action (can_open : string -> bool) (a : action) (s : Logger)
  : Logger :=
  match a with
  | ActCall c => do_call c s
  | ActSetFilename file => setFilename can_open file s
  | ActSetLogging file level => setLogging can_open file level s
  end.

Fixpoint run (can_open : string -> bool) (acts : list action) (s : Logger)
  : Logger :=
  match acts with
  | [] => s
  | a :: rest => run can_open rest (do_action can_open a s)
  end.

(** The calls made by the threads that log; the other two drain. *)
Definition is_producer_call (c : call) : bool :=
  match c with
  | CallSpoolIteration | CallClearBacklog => false
  | _ => true
  end.

(** Sections entered less sections left. *)
Fixpoint section_balance (cs : list call) : Z :=
  match cs with
  | [] => 0
  | CallEnterSection _ _ _ _ :: rest => 1 + section_balance rest
  | CallExitSection _ _ :: rest => -1 + section_balance rest
  | _ :: rest => section_balance rest
  end.

(** ** Disciplines read on a trace *)

(** Walks a trace with the file that is open at its start.  [None] when the
    trace opens a file over an open one, closes or writes a file that is not
    the open one, or writes the console while a file is open; else the file
    open at the end. *)
Fixpoint sink_ok (open : option string) (tr : list event)
  : option (option string) :=
  match tr with
  | [] => Some open
  | FileOpenAppend path ok :: rest =>
      match open with
      | None => sink_ok (if ok then Some path else None) rest
      | Some _ => None
      end
  | FileClose path :: rest =>
      match open with
      | Some p => if String.eqb p path then sink_ok None rest else None
      | None => None
      end
  | FileWrite path _ :: rest =>
      match open with
      | Some p => if String.eqb p path then sink_ok open rest else None
      | None => None
      end
  | ConsoleWrite _ :: rest =>
      match open with
      | None => sink_ok None rest
      | Some _ => None
      end
  | _ :: rest => sink_ok open rest
  end.

(** Walks a trace with the mutex state at its start.  [None] when the trace
    locks a held mutex or unlocks a free one; else the state at the end. *)
Fixpoint mutex_ok (held : bool) (tr : list event) : option bool :=
  match tr with
  | [] => Some held
  | MutexLock :: rest => if held then None else mutex_ok true rest
  | MutexUnlock :: rest => if held then mutex_ok false rest else None
  | MutexTryLockFor _ acquired :: rest =>
      if acquired then (if held then None else mutex_ok true rest)
      else mutex_ok held rest
  | _ :: rest => mutex_ok held rest
  end.

(** The records written so far, and the records written or waiting. *)
Definition written_records (s : Logger) : list string :=
  map written_text (filter is_sink_write (trace s)).

Definition pipeline (s : Logger) : list string :=
  written_records s ++ map sink_record (log_buffer s).

Fixpoint count_char (c : ascii) (str : string) : nat :=
  match str with
  | EmptyString => O
  | String a rest =>
      if Ascii.eqb a c then S (count_char c rest) else count_char c rest
  end.

(** ** Invariants *)

Definition preserves (P : Logger -> Prop) (f : Logger -> Logger) : Prop :=
  forall s : Logger, P s -> P (f s).

(** The file events so far are in order and [writer] is the file they leave
    open. *)
Definition sink_wf (s : Logger) : Prop :=
  sink_ok None (trace s) = Some (writer s).

(** The mutex calls so far alternate and the mutex is free. *)
Definition mutex_wf (s : Logger) : Prop :=
  mutex_ok false (trace s) = Some false /\ write_guard s = false.

(** ** The spooler among the other threads, turn by turn *)

(** What the other threads do during one turn of the loop of [log_spooler].
    A producer's [push_back] is made under the lock: it comes before the
    spooler's drain of the turn ([pushed_before]) or, when it comes after
    the test of [size()] found nothing or after the [unlock], stays in the
    buffer ([pushed_after]).  [~Logger] may clear [is_spooling] before the
    test of [size()] ([stop_before]) or between it and [test_and_set]
    ([stop_after]). *)
Record spool_round : Type := mkRound {
  pushed_before : list string;
  stop_before : bool;
  pushed_after : list string;
  stop_after : bool
}.


Definition push_lines (lines : list string) (s : Logger) : Logger :=
  set_log_buffer (log_buffer s ++ lines) s.

(** One turn of the loop up to its [test_and_set]. *)
Definition spool_round_end (r : spool_round) (s : Logger) : Logger :=
  let s1 := emit (Sleep 100) s in
  let s2 := push_lines (pushed_before r) s1 in
  let s3 := if stop_before r then dtor_begin s2 else s2 in
  let s4 := spool_drain s3 in
  let s5 := push_lines (pushed_after r) s4 in
  if stop_after r then dtor_begin s5 else s5.

(** The loop of [log_spooler], a turn per element of [rounds]; the boolean
    says whether the thread is still in the loop when [rounds] is over. *)
Fixpoint spool_loop_rounds (rounds : list spool_round) (s : Logger)
  : Logger * bool :=
  match rounds with
  | [] => (s, true)
  | r :: rest =>
      let s6 := spool_round_end r s in
      let s7 := set_is_spooling true s6 in
      if is_spooling s6 then spool_loop_rounds rest s7 else (s7, false)
  end.


(** The turns in which the other threads act during the sleep only. *)
Definition sleep_round (r : list string * bool) : spool_round :=
  mkRound (fst r) (snd r) [] false.

(** * Properties *)

(** ** Strings and traces *)

Lemma append_assoc (a b c : string) :
  ((a ++ b) ++ c = a ++ (b ++ c))%string.
Proof.
  induction a as [|ch a IH]; simpl; [reflexivity | now rewrite IH].
Qed.

Lemma append_empty_r (a : string) : (a ++ "" = a)%string.
Proof.
  induction a as [|ch a IH]; simpl; [reflexivity | now rewrite IH].
Qed.

Lemma remove_char_absent (c : ascii) (str : string) :
  contains_char c (remove_char c str) = false.
Proof.
  induction str as [|a rest IH]; simpl; [reflexivity|].
  destruct (Ascii.eqb a c) eqn:E; simpl; [exact IH | now rewrite E].
Qed.

Lemma remove_char_id (c : ascii) (str : string) :
  contains_char c str = false -> remove_char c str = str.
Proof.
  induction str as [|a rest IH]; simpl; intros H; [reflexivity|].
  apply orb_false_iff in H as [Ha Hr].
  rewrite Ha. now rewrite IH.
Qed.

Lemma new_events_app (s s' : Logger) (tr : list event) :
  trace s' = trace s ++ tr -> new_events s s' = tr.
Proof.
  unfold new_events. intros ->.
  rewrite skipn_app, skipn_all, Nat.sub_diag. reflexivity.
Qed.

Lemma new_events_same (s : Logger) : new_events s s = [].
Proof. apply new_events_app. now rewrite app_nil_r. Qed.

(** ** Producers *)

(** What [print_impl] does to each field. *)
Lemma print_impl_effect (params : list string) :
  forall (message_stream : string) (s : Logger),
    print_impl message_stream params s =
    mkLogger (severity_level s) (line_number s) (indentation s) false
      (log_buffer s ++ [(message_stream ++ concat_args params)%string])
      (has_backend s) (is_spooling s) (writer s)
      (trace s ++ [MutexLock; MutexUnlock]).
Proof.
  induction params as [|p ps IH]; intros m s; simpl.
  - unfold unlock, lock, emit, set_log_buffer, set_write_guard; simpl.
    rewrite append_empty_r, <- app_assoc. reflexivity.
  - rewrite IH, append_assoc. reflexivity.
Qed.

Lemma print_effect (now : string) (level : LoggingSeverityLevel)
  (args : list string) (s : Logger) :
  print now level args s =
  if level_value level <=? level_value (severity_level s)
  then mkLogger (severity_level s) (wrap_int (line_number s + 1))
         (indentation s) false
         (log_buffer s ++ [format_line now level (indentation s) args])
         (has_backend s) (is_spooling s) (writer s)
         (trace s ++ [MutexLock; MutexUnlock])
  else s.
Proof.
  unfold print. rewrite Z.gtb_ltb.
  destruct (Z.leb_spec (level_value level) (level_value (severity_level s)))
    as [Hle | Hgt].
  - replace (level_value (severity_level s) <? level_value level) with false
      by (symmetry; apply Z.ltb_ge; exact Hle).
    rewrite print_impl_effect. reflexivity.
  - replace (level_value (severity_level s) <? level_value level) with true
      by (symmetry; apply Z.ltb_lt; exact Hgt).
    reflexivity.
Qed.

Lemma level_value_bounds (l : LoggingSeverityLevel) : 0 <= level_value l <= 6.
Proof. destruct l; simpl; lia. Qed.

Lemma level_value_inj (a b : LoggingSeverityLevel) :
  level_value a = level_value b -> a = b.
Proof. destruct a, b; simpl; intros H; try reflexivity; discriminate H. Qed.

(** C1.  A [print] at level [L] while the threshold is [T] appends exactly one
    line, the formatted one, to the end of the buffer when [L <= T] as
    numbers, and returns the logger as it was (so the buffer too) when
    [T < L]. *)
Theorem print_buffers_iff_level_le_threshold :
  forall (now : string) (L : LoggingSeverityLevel) (args : list string)
         (s : Logger),
    if level_value L <=? level_value (severity_level s)
    then log_buffer (print now L args s) =
         log_buffer s ++ [format_line now L (indentation s) args]
    else print now L args s = s.
Proof.
  intros now L args s. rewrite print_effect.
  destruct (level_value L <=? level_value (severity_level s)); reflexivity.
Qed.

(** C5, as stated, fails at level [LOG_OFF]: with the threshold [LOG_OFF] of
    a fresh logger, [print<LOG_OFF>] passes the test [level > severity_level]
    and buffers a line (labelled TRACE). *)
Lemma print_LOG_OFF_at_threshold_LOG_OFF_buffers :
  severity_level Logger_new = LOG_OFF /\
  log_buffer (print "12:00:00" LOG_OFF ["x"%string] Logger_new) =
    ["12:00:00 P TRACE   x"%string] /\
  log_buffer (print "12:00:00" LOG_OFF ["x"%string] Logger_new) <>
    log_buffer Logger_new.
Proof.
  split; [reflexivity|]. split; [reflexivity|]. discriminate.
Qed.

(** C5, amended.  While the threshold is [LOG_OFF], a [print] at any level
    other than [LOG_OFF] leaves the logger, and so the buffer, as it was. *)
Theorem print_above_LOG_OFF_threshold_is_noop :
  forall (now : string) (L : LoggingSeverityLevel) (args : list string)
         (s : Logger),
    severity_level s = LOG_OFF ->
    L <> LOG_OFF ->
    print now L args s = s.
Proof.
  intros now L args s HT HL. rewrite print_effect, HT.
  destruct L; try reflexivity. now elim HL.
Qed.

Lemma print_above_LOG_OFF_threshold_is_noop_witness :
  print "12:00:00" LOG_ERRORS ["x"%string] Logger_new = Logger_new.
Proof.
  apply (print_above_LOG_OFF_threshold_is_noop
           "12:00:00" LOG_ERRORS ["x"%string] Logger_new).
  - reflexivity.
  - discriminate.
Defined.

(** C10.  [appendToLog] with level [LOG_OFF] returns the logger unchanged,
    whatever the message and the threshold, although [LOG_OFF] is not above
    any threshold (a [print<LOG_OFF>] would pass the level test). *)
Theorem appendToLog_LOG_OFF_is_noop :
  forall (now message : string) (s : Logger),
    appendToLog now LOG_OFF message s = s /\
    level_value LOG_OFF <= level_value (severity_level s).
Proof.
  intros now message s. split; [reflexivity|].
  apply (level_value_bounds (severity_level s)).
Qed.

(** ** The sink *)

Lemma performWrite_effect (logline : string) (s : Logger) :
  performWrite logline s = emit (write_event (writer s) logline) s.
Proof. unfold performWrite, write_event. now destruct (writer s). Qed.

Lemma write_items_effect (items : list string) :
  forall s : Logger,
    write_items items s =
    mkLogger (severity_level s) (line_number s) (indentation s)
      (write_guard s) (log_buffer s) (has_backend s) (is_spooling s)
      (writer s) (trace s ++ map (write_event (writer s)) items).
Proof.
  induction items as [|item rest IH]; intros s; simpl.
  - rewrite app_nil_r. now destruct s.
  - rewrite IH, performWrite_effect. unfold emit; simpl.
    rewrite <- app_assoc. reflexivity.
Qed.

Lemma clear_backlog_effect (s : Logger) :
  clear_backlog s =
  mkLogger (severity_level s) (line_number s) (indentation s)
    (write_guard s) [] (has_backend s) (is_spooling s)
    (writer s) (trace s ++ map (write_event (writer s)) (log_buffer s)).
Proof. unfold clear_backlog. rewrite write_items_effect. reflexivity. Qed.

Lemma written_text_write_event (w : option string) (logline : string) :
  written_text (write_event w logline) = sink_record logline.
Proof. now destruct w. Qed.

Lemma sink_text_write_events (w : option string) (lines : list string) :
  sink_text (map (write_event w) lines) = concat_args (map sink_record lines).
Proof.
  unfold sink_text.
  induction lines as [|l rest IH]; simpl; [reflexivity|].
  replace (is_sink_write (write_event w l)) with true by now destruct w.
  simpl. rewrite written_text_write_event, IH. reflexivity.
Qed.

Lemma sink_record_newline_free (logline : string) :
  contains_char newline logline = false ->
  sink_record logline = (logline ++ endl)%string.
Proof. intros H. unfold sink_record. now rewrite remove_char_id. Qed.


(** A line without newlines reaches the sink as it is. *)
Lemma clear_backlog_newline_free_lines (s : Logger) :
  newline_free (log_buffer s) = true ->
  sink_text (new_events s (clear_backlog s)) =
    concat_args (map (fun l => (l ++ endl)%string) (log_buffer s)).
Proof.
  intros H.
  rewrite (new_events_app s (clear_backlog s)
             (map (write_event (writer s)) (log_buffer s)))
    by now rewrite clear_backlog_effect.
  rewrite sink_text_write_events. f_equal.
  unfold newline_free in H. rewrite forallb_forall in H.
  apply map_ext_in. intros l Hl. apply sink_record_newline_free.
  apply negb_true_iff. now apply H.
Qed.

(** C4, as stated, fails: a message with a newline inside is buffered with
    the newline.  The buffer of the logger below is empty, so every buffered
    line is free of newlines before the call, and not after it. *)
Lemma print_buffers_newline_unstripped :
  let s := setSeverityLevel LOG_ALL Logger_new in
  let message := String "a" (String newline (String "b" EmptyString)) in
  newline_free (log_buffer s) = true /\
  log_buffer (print "12:00:00" LOG_INFO [message] s) =
    [("12:00:00 P INFO    " ++ message)%string] /\
  newline_free (log_buffer (print "12:00:00" LOG_INFO [message] s)) = false.
Proof. repeat split; reflexivity. Qed.

(** C4, amended.  A line is stored in the buffer as it was formatted, with
    whatever newlines its arguments hold; [performWrite] removes them when
    the line is written, so the record that reaches the sink is a text
    without newline followed by one newline. *)
Theorem newlines_removed_when_written :
  forall (message_stream : string) (params : list string)
         (logline : string) (s : Logger),
    log_buffer (print_impl message_stream params s) =
      log_buffer s ++ [(message_stream ++ concat_args params)%string] /\
    new_events s (performWrite logline s) =
      [write_event (writer s) logline] /\
    written_text (write_event (writer s) logline) =
      (remove_char newline logline ++ endl)%string /\
    contains_char newline (remove_char newline logline) = false.
Proof.
  intros m ps logline s. rewrite print_impl_effect.
  split; [reflexivity|]. split.
  - apply new_events_app. now rewrite performWrite_effect.
  - split; [apply written_text_write_event | apply remove_char_absent].
Qed.

(** ** The spooling thread *)

Lemma writes_under_lock_app (a b : list event) :
  forall held : bool,
    writes_under_lock held (a ++ b) =
    writes_under_lock held a && writes_under_lock (lock_after held a) b.
Proof.
  induction a as [|e a IH]; intros held; simpl; [reflexivity|].
  destruct e; simpl; rewrite ?IH; try reflexivity;
    now rewrite andb_assoc.
Qed.

Lemma lock_after_app (a b : list event) :
  forall held : bool,
    lock_after held (a ++ b) = lock_after (lock_after held a) b.
Proof.
  induction a as [|e a IH]; intros held; simpl; [reflexivity|].
  destruct e; simpl; now rewrite IH.
Qed.

Lemma write_events_under_lock (w : option string) (lines : list string) :
  writes_under_lock true (map (write_event w) lines) = true /\
  lock_after true (map (write_event w) lines) = true.
Proof.
  induction lines as [|l rest [IH1 IH2]]; simpl; [now split|].
  destruct w; simpl; now rewrite IH1, IH2.
Qed.

(** The events of the locked drain of a buffer. *)
Lemma spool_drain_trace (s : Logger) :
  trace (spool_drain s) =
  trace s ++
  match log_buffer s with
  | [] => []
  | _ :: _ =>
      [MutexLock] ++ map (write_event (writer s)) (log_buffer s)
      ++ [MutexUnlock]
  end.
Proof.
  unfold spool_drain. destruct (log_buffer s) as [|l rest] eqn:E.
  - now rewrite app_nil_r.
  - unfold unlock. rewrite clear_backlog_effect. unfold lock, emit; simpl.
    rewrite E. simpl. rewrite <- !app_assoc. reflexivity.
Qed.

Lemma spool_drain_fields (s : Logger) :
  log_buffer (spool_drain s) = [] /\ writer (spool_drain s) = writer s.
Proof.
  unfold spool_drain. destruct (log_buffer s) as [|l rest] eqn:E.
  - now split.
  - unfold unlock. rewrite clear_backlog_effect. now split.
Qed.

Lemma spool_drain_under_lock (s : Logger) :
  exists tr : list event,
    trace (spool_drain s) = trace s ++ tr /\
    writes_under_lock false tr = true /\
    lock_after false tr = false.
Proof.
  eexists. split; [apply spool_drain_trace|].
  destruct (log_buffer s) as [|l rest]; [now split|].
  destruct (write_events_under_lock (writer s) (l :: rest)) as [H1 H2].
  split.
  - change (writes_under_lock true
              (map (write_event (writer s)) (l :: rest) ++ [MutexUnlock])
            = true).
    rewrite writes_under_lock_app, H1, H2. reflexivity.
  - change (lock_after true
              (map (write_event (writer s)) (l :: rest) ++ [MutexUnlock])
            = false).
    rewrite lock_after_app, H2. reflexivity.
Qed.

Lemma spool_loop_under_lock (rounds : list (list string * bool)) :
  forall s : Logger,
  exists tr : list event,
    trace (fst (spool_loop rounds s)) = trace s ++ tr /\
    writes_under_lock false tr = true /\
    lock_after false tr = false.
Proof.
  induction rounds as [|[lines stop] rest IH]; intros s; simpl.
  - exists []. now rewrite app_nil_r.
  - set (s3 := if stop then _ else _).
    assert (E3 : trace s3 = trace s ++ [Sleep 100])
      by (subst s3; now destruct stop).
    destruct (spool_drain_under_lock s3) as (tr1 & E1 & W1 & L1).
    destruct (is_spooling (spool_drain s3)).
    + destruct (IH (set_is_spooling true (spool_drain s3)))
        as (tr2 & E2 & W2 & L2).
      exists ([Sleep 100] ++ tr1 ++ tr2). split; [|split].
      * rewrite E2. simpl. rewrite E1, E3. now rewrite <- !app_assoc.
      * simpl. now rewrite writes_under_lock_app, W1, L1, W2.
      * simpl. now rewrite lock_after_app, L1, L2.
    + exists ([Sleep 100] ++ tr1). split; [|split].
      * simpl. rewrite E1, E3. now rewrite <- !app_assoc.
      * exact W1.
      * exact L1.
Qed.

Lemma log_spooler_under_lock (rounds : list (list string * bool))
  (s : Logger) :
  exists tr : list event,
    trace (log_spooler rounds s) = trace s ++ tr /\
    writes_under_lock false tr = true.
Proof.
  unfold log_spooler.
  destruct (spool_loop_under_lock rounds
              (set_is_spooling true (set_has_backend true s)))
    as (tr & E & W & L).
  destruct (spool_loop rounds _) as [s1 [|]]; simpl in E.
  - exists tr. now split.
  - exists (tr ++ [Sleep 100000]). split.
    + simpl. rewrite E. simpl. now rewrite <- app_assoc.
    + now rewrite writes_under_lock_app, W, L.
Qed.

(** C3, as stated, fails: the spooler calls [clear_backlog] between
    [writing_lock.lock()] and [writing_lock.unlock()], so the one buffered
    line below is written to the console while the lock is held. *)
Lemma spool_iteration_writes_while_locked :
  let s := print "12:00:00" LOG_ERRORS ["x"%string]
             (setSeverityLevel LOG_ALL Logger_new) in
  new_events s (spool_iteration s) =
    [Sleep 100; MutexLock;
     ConsoleWrite ("12:00:00 P ERROR   x" ++ endl)%string;
     MutexUnlock] /\
  writes_outside_lock false (new_events s (spool_iteration s)) = false.
Proof. split; reflexivity. Qed.

(** C3, amended.  A spool iteration that finds lines in the buffer takes the
    lock, writes every buffered line through the sink writer while it holds
    the lock, empties the buffer and only then releases the lock; over a
    whole run of [log_spooler], whatever the other threads do, every write
    of the spooler is made with the lock held. *)
Theorem spooler_writes_while_holding_lock :
  forall s : Logger,
    new_events s (spool_iteration s) =
      Sleep 100 ::
      match log_buffer s with
      | [] => []
      | _ :: _ =>
          [MutexLock] ++ map (write_event (writer s)) (log_buffer s)
          ++ [MutexUnlock]
      end /\
    log_buffer (spool_iteration s) = [] /\
    forall rounds : list (list string * bool),
      writes_under_lock false (new_events s (log_spooler rounds s)) = true.
Proof.
  intros s. split; [|split].
  - apply new_events_app. unfold spool_iteration.
    rewrite spool_drain_trace. simpl. now rewrite <- app_assoc.
  - apply spool_drain_fields.
  - intros rounds.
    destruct (log_spooler_under_lock rounds s) as (tr & E & W).
    now rewrite (new_events_app _ _ _ E).
Qed.

(** ** Teardown *)

(** The wait is over at the latest at the first poll that reads a clock two
    ticks past [start], whatever [has_backend] reads. *)
Lemma dtor_wait_bound (start : Z) (backend_at : nat -> bool)
  (clock_at : nat -> Z) (n : nat) :
  forall (fuel k : nat),
    (n < fuel)%nat ->
    2 <= clock_at (k + n)%nat - start ->
    exists m : nat,
      (m <= k + n)%nat /\
      dtor_wait fuel start backend_at clock_at k = Some m.
Proof.
  induction n as [|n IH]; intros fuel k Hfuel Hclock.
  - destruct fuel as [|fuel]; [lia|]. simpl.
    rewrite Nat.add_0_r in Hclock. unfold keep_waiting.
    replace (clock_at k - start <? 2) with false
      by (symmetry; apply Z.ltb_ge; exact Hclock).
    rewrite andb_false_r. exists k. split; [lia | reflexivity].
  - destruct fuel as [|fuel]; [lia|]. simpl.
    destruct (keep_waiting start (backend_at k) (clock_at k)).
    + destruct (IH fuel (S k)) as (m & Hm & E); [lia | |].
      * replace (S k + n)%nat with (k + S n)%nat by lia. exact Hclock.
      * exists m. split; [lia | exact E].
    + exists k. split; [lia | reflexivity].
Qed.

(** The wait is over at the latest at the first poll that reads
    [has_backend] false. *)
Lemma dtor_wait_acknowledged (start : Z) (backend_at : nat -> bool)
  (clock_at : nat -> Z) (n : nat) :
  forall (fuel k : nat),
    (n < fuel)%nat ->
    backend_at (k + n)%nat = false ->
    exists m : nat,
      (m <= k + n)%nat /\
      dtor_wait fuel start backend_at clock_at k = Some m.
Proof.
  induction n as [|n IH]; intros fuel k Hfuel Hack.
  - destruct fuel as [|fuel]; [lia|]. simpl.
    rewrite Nat.add_0_r in Hack. unfold keep_waiting. rewrite Hack. simpl.
    exists k. split; [lia | reflexivity].
  - destruct fuel as [|fuel]; [lia|]. simpl.
    destruct (keep_waiting start (backend_at k) (clock_at k)).
    + destruct (IH fuel (S k)) as (m & Hm & E); [lia | |].
      * replace (S k + n)%nat with (k + S n)%nat by lia. exact Hack.
      * exists m. split; [lia | exact E].
    + exists k. split; [lia | reflexivity].
Qed.

(** C2, on the code.  With a worker that never acknowledges and a clock
    polled once per tick, the wait of [~Logger] is over at the poll that
    reads two ticks: the bound [2.0] is compared with
    [system_clock::duration::count()], a number of ticks.  With the 100 ns
    tick of Visual C++ two seconds are 20,000,000 ticks; the destructor goes
    on to its final flush after 2. *)
Theorem dtor_wait_ends_after_two_ticks :
  forall (fuel : nat) (start : Z) (worker : Logger -> Logger) (s : Logger),
    let clock_at := fun k : nat => start + Z.of_nat k in
    dtor_wait (3 + fuel) start (fun _ => true) clock_at 0 = Some 2%nat /\
    clock_at 2%nat - start = 2 /\
    seconds_to_ticks 10000000 2 = 20000000 /\
    Logger_dtor (3 + fuel) start (fun _ => true) clock_at worker s =
      Some (dtor_finish (worker (dtor_begin s))).
Proof.
  intros fuel start worker s clock_at.
  assert (E : dtor_wait (3 + fuel) start (fun _ => true) clock_at 0
              = Some 2%nat).
  { subst clock_at. simpl. unfold keep_waiting.
    replace (start + 0 - start) with 0 by lia.
    replace (start + 1 - start) with 1 by lia.
    replace (start + 2 - start) with 2 by lia.
    reflexivity. }
  split; [exact E|]. split; [subst clock_at; simpl; lia|].
  split; [reflexivity|].
  unfold Logger_dtor. now rewrite E.
Qed.

Lemma write_events_no_mutex (w : option string) (lines : list string) :
  existsb is_mutex_event (map (write_event w) lines) = false.
Proof.
  induction lines as [|l rest IH]; simpl; [reflexivity|].
  rewrite IH. now destruct w.
Qed.

Lemma dtor_finish_trace (s : Logger) :
  trace (dtor_finish s) =
  trace s ++ map (write_event (writer s)) (log_buffer s) ++ [ThreadDetach]
  ++ match writer s with
     | Some path => [FileClose path]
     | None => []
     end.
Proof.
  unfold dtor_finish. rewrite clear_backlog_effect. simpl.
  destruct (writer s); simpl; rewrite <- !app_assoc; reflexivity.
Qed.

(** C6, as stated, fails: the destructor calls [clear_backlog()] directly.
    On a logger with one buffered line the whole of [~Logger] makes no timed
    attempt on the lock (no mutex call at all), and the line is written. *)
Lemma Logger_dtor_makes_no_timed_lock_attempt :
  let s := print "12:00:00" LOG_ERRORS ["x"%string]
             (setSeverityLevel LOG_ALL Logger_new) in
  let s' := dtor_finish (dtor_begin s) in
  Logger_dtor 3 0 (fun _ => true) (fun k => Z.of_nat k) (fun l => l) s
    = Some s' /\
  new_events s s' =
    [ConsoleWrite ("12:00:00 P ERROR   x" ++ endl)%string; ThreadDetach] /\
  existsb is_timed_lock_attempt (new_events s s') = false.
Proof. repeat split; reflexivity. Qed.

(** C6, amended.  The final flush of the teardown makes no attempt, timed or
    not, to acquire the buffer lock: it writes every line left in the buffer,
    in order, without the lock, then detaches the thread and closes the file
    when one is open. *)
Theorem dtor_final_flush_takes_no_lock :
  forall s : Logger,
    new_events s (dtor_finish s) =
      map (write_event (writer s)) (log_buffer s) ++ [ThreadDetach]
      ++ match writer s with
         | Some path => [FileClose path]
         | None => []
         end /\
    existsb is_mutex_event (new_events s (dtor_finish s)) = false /\
    log_buffer (dtor_finish s) = [].
Proof.
  intros s.
  rewrite (new_events_app _ _ _ (dtor_finish_trace s)).
  split; [reflexivity|]. split.
  - rewrite existsb_app, write_events_no_mutex. now destruct (writer s).
  - unfold dtor_finish. rewrite clear_backlog_effect. simpl.
    now destruct (writer s).
Qed.

(** ** The sink target *)

Lemma keeps_sink_compose (f g : Logger -> Logger) :
  keeps_sink f -> keeps_sink g -> keeps_sink (fun s => g (f s)).
Proof.
  intros Hf Hg s.
  destruct (Hf s) as (Wf & trf & Ef & Cf).
  destruct (Hg (f s)) as (Wg & trg & Eg & Cg).
  split; [congruence|].
  exists (trf ++ trg). split.
  - now rewrite Eg, Ef, app_assoc.
  - intros Hw. unfold console_only in *. rewrite forallb_app.
    rewrite (Cf Hw). apply Cg. congruence.
Qed.

Lemma keeps_sink_print (now : string) (level : LoggingSeverityLevel)
  (args : list string) : keeps_sink (print now level args).
Proof.
  intros s. rewrite print_effect.
  destruct (level_value level <=? level_value (severity_level s)); simpl.
  - split; [reflexivity|]. now exists [MutexLock; MutexUnlock].
  - split; [reflexivity|]. exists []. now rewrite app_nil_r.
Qed.

Lemma indent_effect (s : Logger) :
  indent s =
  mkLogger (severity_level s) (line_number s) (wrap_int (indentation s + 1))
    false (log_buffer s) (has_backend s) (is_spooling s) (writer s)
    (trace s ++ [MutexLock; MutexUnlock]).
Proof.
  unfold indent, unlock, lock, emit, set_indentation, set_write_guard; simpl.
  now rewrite <- app_assoc.
Qed.

Lemma unindent_effect (s : Logger) :
  unindent s =
  mkLogger (severity_level s) (line_number s) (wrap_int (indentation s - 1))
    false (log_buffer s) (has_backend s) (is_spooling s) (writer s)
    (trace s ++ [MutexLock; MutexUnlock]).
Proof.
  unfold unindent, unlock, lock, emit, set_indentation, set_write_guard; simpl.
  now rewrite <- app_assoc.
Qed.

Lemma keeps_sink_indent : keeps_sink indent.
Proof.
  intros s. rewrite indent_effect. simpl.
  split; [reflexivity|]. now exists [MutexLock; MutexUnlock].
Qed.

Lemma keeps_sink_unindent : keeps_sink unindent.
Proof.
  intros s. rewrite unindent_effect. simpl.
  split; [reflexivity|]. now exists [MutexLock; MutexUnlock].
Qed.

Lemma console_only_write_events (lines : list string) :
  console_only (map (write_event None) lines) = true.
Proof. induction lines as [|l rest IH]; simpl; [reflexivity | exact IH]. Qed.

Lemma keeps_sink_clear_backlog : keeps_sink clear_backlog.
Proof.
  intros s. rewrite clear_backlog_effect. simpl.
  split; [reflexivity|]. eexists. split; [reflexivity|].
  intros ->. apply console_only_write_events.
Qed.

Lemma keeps_sink_spool_iteration : keeps_sink spool_iteration.
Proof.
  intros s. unfold spool_iteration.
  destruct (spool_drain_fields (emit (Sleep 100) s)) as [_ W].
  split; [exact W|].
  eexists. split.
  - rewrite spool_drain_trace. simpl. rewrite <- app_assoc. reflexivity.
  - intros Hw. rewrite Hw. simpl.
    destruct (log_buffer s) as [|l rest]; [reflexivity|].
    unfold console_only. simpl. rewrite forallb_app.
    fold (console_only (map (write_event None) rest)).
    now rewrite console_only_write_events.
Qed.

Lemma keeps_sink_do_call (c : call) : keeps_sink (do_call c).
Proof.
  destruct c as [now level args | now level message | level
                | now1 now2 level title | now level | |]; simpl.
  - apply keeps_sink_print.
  - destruct level; simpl; try apply keeps_sink_print.
    intros s. split; [reflexivity|]. exists []. now rewrite app_nil_r.
  - intros s. split; [reflexivity|]. exists []. now rewrite app_nil_r.
  - unfold LogSection_enter.
    apply (keeps_sink_compose (fun s => print now2 level ["{"%string]
                                          (print now1 level [title] s)) indent).
    + apply (keeps_sink_compose (print now1 level [title])
               (print now2 level ["{"%string])); apply keeps_sink_print.
    + apply keeps_sink_indent.
  - unfold LogSection_exit.
    apply (keeps_sink_compose unindent (print now level ["}"%string])).
    + apply keeps_sink_unindent.
    + apply keeps_sink_print.
  - apply keeps_sink_spool_iteration.
  - apply keeps_sink_clear_backlog.
Qed.

Lemma keeps_sink_do_calls (cs : list call) : keeps_sink (do_calls cs).
Proof.
  induction cs as [|c rest IH]; simpl.
  - intros s. split; [reflexivity|]. exists []. now rewrite app_nil_r.
  - apply (keeps_sink_compose (do_call c) (do_calls rest));
      [apply keeps_sink_do_call | exact IH].
Qed.

Lemma setFilename_trace (can_open : string -> bool) (file : string)
  (s : Logger) :
  trace (setFilename can_open file s) =
  trace s
  ++ match writer s with
     | Some old => [FileClose old]
     | None => []
     end
  ++ [FileOpenAppend file (can_open file)].
Proof.
  unfold setFilename.
  destruct (writer s), (can_open file); simpl;
    rewrite <- ?app_assoc; reflexivity.
Qed.

Lemma setFilename_writer (can_open : string -> bool) (file : string)
  (s : Logger) :
  writer (setFilename can_open file s) =
  if can_open file then Some file else None.
Proof.
  unfold setFilename. destruct (writer s), (can_open file); reflexivity.
Qed.

(** C9.  [setFilename] first closes the file that is open, if any, then
    tries to open the new path for appending, and does nothing else.  The
    call returns a logger whatever the outcome; when the open fails no file
    is open afterwards, and every write made by whatever calls follow (short
    of a new [setFilename]) is a write on the console. *)
Theorem setFilename_failure_falls_back_to_console :
  forall (can_open : string -> bool) (file : string) (s : Logger),
    new_events s (setFilename can_open file s) =
      match writer s with
      | Some old => [FileClose old]
      | None => []
      end ++ [FileOpenAppend file (can_open file)] /\
    (can_open file = false ->
     writer (setFilename can_open file s) = None /\
     forall (cs : list call) (logline : string),
       let s' := do_calls cs (setFilename can_open file s) in
       console_only (new_events (setFilename can_open file s) s') = true /\
       writer s' = None /\
       new_events s' (performWrite logline s') =
         [ConsoleWrite (remove_char newline logline ++ endl)%string]).
Proof.
  intros can_open file s. split.
  - apply new_events_app. apply setFilename_trace.
  - intros Hfail.
    assert (W : writer (setFilename can_open file s) = None)
      by now rewrite setFilename_writer, Hfail.
    split; [exact W|]. intros cs logline s'.
    destruct (keeps_sink_do_calls cs (setFilename can_open file s))
      as (Wk & tr & E & C).
    fold s' in Wk, E.
    assert (W' : writer s' = None) by congruence.
    split; [|split].
    + rewrite (new_events_app _ _ _ E). now apply C.
    + exact W'.
    + apply new_events_app. rewrite performWrite_effect, W'. reflexivity.
Qed.

Lemma setFilename_failure_falls_back_to_console_witness :
  writer (setFilename (fun _ => false) "/nowhere/malmo.log" Logger_new) = None.
Proof.
  apply (setFilename_failure_falls_back_to_console
           (fun _ => false) "/nowhere/malmo.log" Logger_new).
  reflexivity.
Defined.

(** ** Sections *)

Lemma wrap_int_id (z : Z) : in_int_range z -> wrap_int z = z.
Proof.
  unfold in_int_range, int_min, int_max, wrap_int. intros H.
  rewrite Z.mod_small; lia.
Qed.

Lemma wrap_int_add (a b : Z) : wrap_int (wrap_int a + b) = wrap_int (a + b).
Proof.
  unfold wrap_int.
  replace ((a + 2 ^ 31) mod 2 ^ 32 - 2 ^ 31 + b + 2 ^ 31)
    with ((a + 2 ^ 31) mod 2 ^ 32 + b) by lia.
  rewrite Zplus_mod_idemp_l. f_equal. f_equal. lia.
Qed.

Lemma LogSection_enter_effect (now1 now2 : string)
  (level : LoggingSeverityLevel) (title : string) (s : Logger) :
  LogSection_enter now1 now2 level title s =
  if level_value level <=? level_value (severity_level s)
  then mkLogger (severity_level s)
         (wrap_int (wrap_int (line_number s + 1) + 1))
         (wrap_int (indentation s + 1)) false
         (log_buffer s ++
          [format_line now1 level (indentation s) [title];
           format_line now2 level (indentation s) ["{"%string]])
         (has_backend s) (is_spooling s) (writer s)
         (trace s ++ [MutexLock; MutexUnlock; MutexLock; MutexUnlock;
                      MutexLock; MutexUnlock])
  else mkLogger (severity_level s) (line_number s)
         (wrap_int (indentation s + 1)) false (log_buffer s)
         (has_backend s) (is_spooling s) (writer s)
         (trace s ++ [MutexLock; MutexUnlock]).
Proof.
  unfold LogSection_enter. rewrite indent_effect, !print_effect.
  destruct (level_value level <=? level_value (severity_level s)) eqn:E;
    simpl; rewrite ?E; simpl; rewrite <- ?app_assoc; reflexivity.
Qed.

Lemma LogSection_exit_effect (now : string) (level : LoggingSeverityLevel)
  (s : Logger) :
  LogSection_exit now level s =
  if level_value level <=? level_value (severity_level s)
  then mkLogger (severity_level s) (wrap_int (line_number s + 1))
         (wrap_int (indentation s - 1)) false
         (log_buffer s ++
          [format_line now level (wrap_int (indentation s - 1)) ["}"%string]])
         (has_backend s) (is_spooling s) (writer s)
         (trace s ++ [MutexLock; MutexUnlock; MutexLock; MutexUnlock])
  else mkLogger (severity_level s) (line_number s)
         (wrap_int (indentation s - 1)) false (log_buffer s)
         (has_backend s) (is_spooling s) (writer s)
         (trace s ++ [MutexLock; MutexUnlock]).
Proof.
  unfold LogSection_exit. rewrite print_effect, unindent_effect. simpl.
  destruct (level_value level <=? level_value (severity_level s));
    simpl; rewrite <- ?app_assoc; reflexivity.
Qed.

(** The three operations when the level passes the threshold, as seen on
    the threshold, the depth and the buffer. *)
Lemma print_logged (now : string) (L : LoggingSeverityLevel)
  (args : list string) (s : Logger) (d : Z) :
  level_value L <= level_value (severity_level s) ->
  indentation s = d ->
  severity_level (print now L args s) = severity_level s /\
  indentation (print now L args s) = d /\
  log_buffer (print now L args s) = log_buffer s ++ [format_line now L d args].
Proof.
  intros HL Hd. rewrite print_effect.
  apply Z.leb_le in HL. rewrite HL. simpl. now subst d.
Qed.

Lemma LogSection_enter_logged (now1 now2 : string) (L : LoggingSeverityLevel)
  (title : string) (s : Logger) (d : Z) :
  level_value L <= level_value (severity_level s) ->
  indentation s = d ->
  in_int_range (d + 1) ->
  severity_level (LogSection_enter now1 now2 L title s) = severity_level s /\
  indentation (LogSection_enter now1 now2 L title s) = d + 1 /\
  log_buffer (LogSection_enter now1 now2 L title s) =
    log_buffer s ++
    [format_line now1 L d [title]; format_line now2 L d ["{"%string]].
Proof.
  intros HL Hd Hr. rewrite LogSection_enter_effect.
  apply Z.leb_le in HL. rewrite HL. simpl. subst d.
  now rewrite wrap_int_id.
Qed.

Lemma LogSection_exit_logged (now : string) (L : LoggingSeverityLevel)
  (s : Logger) (d : Z) :
  level_value L <= level_value (severity_level s) ->
  indentation s = d ->
  in_int_range (d - 1) ->
  severity_level (LogSection_exit now L s) = severity_level s /\
  indentation (LogSection_exit now L s) = d - 1 /\
  log_buffer (LogSection_exit now L s) =
    log_buffer s ++ [format_line now L (d - 1) ["}"%string]].
Proof.
  intros HL Hd Hr. rewrite LogSection_exit_effect.
  apply Z.leb_le in HL. rewrite HL. simpl. subst d.
  now rewrite wrap_int_id.
Qed.

Lemma small_in_int_range (z : Z) : -4 <= z <= 4 -> in_int_range z.
Proof. unfold in_int_range, int_min, int_max. lia. Qed.

Lemma spaces4_snoc (n : nat) :
  (spaces4 n ++ "    ")%string = ("    " ++ spaces4 n)%string.
Proof.
  induction n as [|n IH]; [reflexivity|].
  change (spaces4 (S n)) with ("    " ++ spaces4 n)%string.
  now rewrite append_assoc, IH.
Qed.

(** One level of depth more is four spaces more at the end of the prefix. *)
Lemma line_prefix_deeper (now : string) (L : LoggingSeverityLevel) (d : Z) :
  0 <= d ->
  line_prefix now L (d + 1) = (line_prefix now L d ++ "    ")%string.
Proof.
  intros Hd. unfold line_prefix, indent_text.
  replace (Z.to_nat (d + 1)) with (S (Z.to_nat d)) by lia.
  rewrite !append_assoc, spaces4_snoc. reflexivity.
Qed.

(** The text of a line at a depth that is not negative. *)
Lemma format_line_text (now : string) (L : LoggingSeverityLevel) (n : nat)
  (args : list string) :
  format_line now L (Z.of_nat n) args =
  (now ++ " P " ++ severity_label L ++ spaces4 n ++ concat_args args)%string.
Proof.
  unfold format_line, line_prefix, indent_text.
  rewrite Nat2Z.id, !append_assoc. reflexivity.
Qed.

Lemma format_line_depth0 (now : string) (L : LoggingSeverityLevel)
  (args : list string) :
  format_line now L 0 args =
  (now ++ " P " ++ severity_label L ++ "" ++ concat_args args)%string.
Proof. exact (format_line_text now L 0 args). Qed.

Lemma format_line_depth1 (now : string) (L : LoggingSeverityLevel)
  (args : list string) :
  format_line now L 1 args =
  (now ++ " P " ++ severity_label L ++ "    " ++ concat_args args)%string.
Proof. exact (format_line_text now L 1 args). Qed.

Lemma format_line_depth2 (now : string) (L : LoggingSeverityLevel)
  (args : list string) :
  format_line now L 2 args =
  (now ++ " P " ++ severity_label L ++ "        " ++ concat_args args)%string.
Proof. exact (format_line_text now L 2 args). Qed.

(** C8.  Entering a section [print]s the title and the opening marker at the
    current depth and then adds one to the depth; leaving it takes one from
    the depth and then [print]s the closing marker at the new depth (the
    [print]s buffer their line when the section's level passes the
    threshold).  So a section entered and left restores the depth, from
    every depth at which the increment is defined (below [INT_MAX]).  A
    level of depth is four spaces in the text of a line, after the label:
    from depth 0, a section X holding a line and a section Y that holds a
    line ends at depth 0, with X's title and markers not indented, X's line
    and Y's title and markers indented by four spaces, and Y's line by
    eight. *)
Theorem section_enter_exit_depth :
  forall (now1 now2 now3 : string) (L : LoggingSeverityLevel)
         (title : string) (s : Logger),
    in_int_range (indentation s) ->
    let d := indentation s in
    let logged := level_value L <=? level_value (severity_level s) in
    let s1 := LogSection_enter now1 now2 L title s in
    let s2 := LogSection_exit now3 L s in
    let line := fun t pad message : string =>
      (t ++ " P " ++ severity_label L ++ pad ++ message)%string in
    log_buffer s1 =
      log_buffer s ++
      (if logged
       then [format_line now1 L d [title]; format_line now2 L d ["{"%string]]
       else []) /\
    (d < int_max -> indentation s1 = d + 1) /\
    (int_min < d ->
     indentation s2 = d - 1 /\
     log_buffer s2 =
       log_buffer s ++
       (if logged then [format_line now3 L (d - 1) ["}"%string]] else [])) /\
    (d < int_max -> indentation (LogSection_exit now3 L s1) = d) /\
    (0 <= d ->
     forall (t : string) (L' : LoggingSeverityLevel) (args : list string),
       line_prefix t L' 0 = (t ++ " P " ++ severity_label L')%string /\
       line_prefix t L' (d + 1) = (line_prefix t L' d ++ "    ")%string /\
       format_line t L' (d + 1) args =
         (line_prefix t L' d ++ "    " ++ concat_args args)%string) /\
    (d = 0 ->
     logged = true ->
     forall (ta t3 t4 tb t5 t6 titleY : string) (a b : list string),
       let sa := print ta L a s1 in
       let sY := LogSection_enter t3 t4 L titleY sa in
       let sb := print tb L b sY in
       let s' := LogSection_exit t6 L (LogSection_exit t5 L sb) in
       indentation s' = 0 /\
       log_buffer s' =
         log_buffer s ++
         [line now1 "" title; line now2 "" "{";
          line ta "    " (concat_args a);
          line t3 "    " titleY; line t4 "    " "{";
          line tb "        " (concat_args b);
          line t5 "    " "}";
          line t6 "" "}"]%string).
Proof.
  intros now1 now2 now3 L title s Hr d logged s1 s2 line.
  assert (Hr' : int_min <= d <= int_max) by exact Hr.
  assert (I1 : indentation s1 = wrap_int (d + 1)).
  { subst s1. rewrite LogSection_enter_effect. fold logged d.
    destruct logged; reflexivity. }
  assert (I2 : indentation s2 = wrap_int (d - 1)).
  { subst s2. rewrite LogSection_exit_effect. fold logged d.
    destruct logged; reflexivity. }
  split.
  { subst s1. rewrite LogSection_enter_effect. fold logged d.
    destruct logged; cbn [log_buffer]; rewrite ?app_nil_r; reflexivity. }
  split.
  { intros Hd. rewrite I1. apply wrap_int_id. unfold in_int_range. lia. }
  split.
  { intros Hd.
    assert (E : wrap_int (d - 1) = d - 1)
      by (apply wrap_int_id; unfold in_int_range; lia).
    split; [now rewrite I2|].
    subst s2. rewrite LogSection_exit_effect. fold logged d. rewrite E.
    destruct logged; cbn [log_buffer]; rewrite ?app_nil_r; reflexivity. }
  split.
  { intros Hd.
    assert (E : indentation (LogSection_exit now3 L s1)
                = wrap_int (indentation s1 - 1)).
    { rewrite LogSection_exit_effect.
      destruct (level_value L <=? level_value (severity_level s1));
        reflexivity. }
    rewrite E, I1.
    rewrite (wrap_int_id (d + 1)) by (unfold in_int_range; lia).
    replace (d + 1 - 1) with d by lia. now apply wrap_int_id. }
  split.
  { intros Hd t L' args.
    split; [unfold line_prefix; simpl; now rewrite append_empty_r|].
    split; [now apply line_prefix_deeper|].
    unfold format_line. rewrite line_prefix_deeper by exact Hd.
    now rewrite append_assoc. }
  intros Hd0 Hlog ta t3 t4 tb t5 t6 titleY a b.
  assert (HL : level_value L <= level_value (severity_level s))
    by now apply Z.leb_le.
  destruct (LogSection_enter_logged now1 now2 L title s 0)
    as (SX & IX & BX);
    [exact HL | exact Hd0 | now apply small_in_int_range |].
  fold s1 in SX, IX, BX.
  intros sa sY sb s'.
  destruct (print_logged ta L a s1 (0 + 1)) as (Sa & Ia & Ba);
    [now rewrite SX | exact IX |].
  fold sa in Sa, Ia, Ba.
  destruct (LogSection_enter_logged t3 t4 L titleY sa (0 + 1))
    as (SY & IY & BY);
    [rewrite Sa, SX; exact HL | exact Ia | now apply small_in_int_range |].
  fold sY in SY, IY, BY.
  destruct (print_logged tb L b sY (0 + 1 + 1)) as (Sb & Ib & Bb);
    [rewrite SY, Sa, SX; exact HL | exact IY |].
  fold sb in Sb, Ib, Bb.
  destruct (LogSection_exit_logged t5 L sb (0 + 1 + 1)) as (S5 & I5 & B5);
    [rewrite Sb, SY, Sa, SX; exact HL | exact Ib
    | now apply small_in_int_range |].
  destruct (LogSection_exit_logged t6 L (LogSection_exit t5 L sb)
              (0 + 1 + 1 - 1))
    as (S6 & I6 & B6);
    [rewrite S5, Sb, SY, Sa, SX; exact HL | exact I5
    | now apply small_in_int_range |].
  fold s' in S6, I6, B6.
  split; [rewrite I6; reflexivity|].
  rewrite B6, B5, Bb, BY, Ba, BX. rewrite <- !app_assoc.
  change (0 + 1 + 1 - 1 - 1) with 0. change (0 + 1 + 1 - 1) with 1.
  change (0 + 1 + 1) with 2. change (0 + 1) with 1.
  rewrite !format_line_depth0, !format_line_depth1, !format_line_depth2.
  subst line. cbn [concat_args app]. rewrite !append_empty_r.
  reflexivity.
Qed.

Lemma section_enter_exit_depth_witness :
  let s := setSeverityLevel LOG_ALL Logger_new in
  let sX := LogSection_enter "12:00:01" "12:00:02" LOG_INFO "X" s in
  let s' := LogSection_exit "12:00:08" LOG_INFO
              (LogSection_exit "12:00:07" LOG_INFO
                 (print "12:00:06" LOG_INFO ["b"%string]
                    (LogSection_enter "12:00:04" "12:00:05" LOG_INFO "Y"
                       (print "12:00:03" LOG_INFO ["a"%string] sX)))) in
  in_int_range (indentation s) /\
  indentation sX = 1 /\
  indentation (LogSection_exit "12:00:09" LOG_INFO sX) = 0 /\
  indentation s' = 0 /\
  log_buffer s' =
    ["12:00:01 P INFO    X"; "12:00:02 P INFO    {";
     "12:00:03 P INFO        a";
     "12:00:04 P INFO        Y"; "12:00:05 P INFO        {";
     "12:00:06 P INFO            b";
     "12:00:07 P INFO        }";
     "12:00:08 P INFO    }"]%string.
Proof.
  intros s sX s'.
  assert (Hr : in_int_range (indentation s)).
  { split; discriminate. }
  destruct (section_enter_exit_depth
              "12:00:01" "12:00:02" "12:00:09" LOG_INFO "X" s Hr)
    as (_ & Hinc & _ & Hpair & _ & Hnest).
  split; [exact Hr|].
  split; [apply Hinc; reflexivity|].
  split; [apply Hpair; reflexivity|].
  exact (Hnest eq_refl eq_refl
           "12:00:03"%string "12:00:04"%string "12:00:05"%string
           "12:00:06"%string "12:00:07"%string "12:00:08"%string
           "Y"%string ["a"%string] ["b"%string]).
Defined.

(** * Further properties *)

(** ** Formatting *)

Lemma length_append (a b : string) :
  String.length (a ++ b)%string = (String.length a + String.length b)%nat.
Proof. induction a as [|c a IH]; simpl; [reflexivity | now rewrite IH]. Qed.

Lemma length_spaces4 (n : nat) : String.length (spaces4 n) = (4 * n)%nat.
Proof. induction n as [|n IH]; simpl; [reflexivity | rewrite IH; lia]. Qed.

(** The text before the message is the time stamp, three characters of
    origin tag, an eight character label whatever the level, and four spaces
    per level of depth; a depth of zero or below gives no indentation. *)
Theorem line_prefix_length :
  forall (now : string) (L : LoggingSeverityLevel) (d : Z),
    String.length (line_prefix now L d) =
      (String.length now + 11 + 4 * Z.to_nat d)%nat /\
    (d <= 0 -> line_prefix now L d = (now ++ " P " ++ severity_label L)%string).
Proof.
  intros now L d. split.
  - unfold line_prefix, indent_text.
    rewrite !length_append, length_spaces4.
    destruct L; simpl; lia.
  - intros Hd. unfold line_prefix, indent_text.
    replace (Z.to_nat d) with O by lia. simpl.
    now rewrite append_empty_r.
Qed.

Lemma line_prefix_length_witness :
  line_prefix "12:00:00" LOG_INFO (-1) = "12:00:00 P INFO    "%string.
Proof.
  apply (line_prefix_length "12:00:00" LOG_INFO (-1)). lia.
Defined.

(** Two levels print the same label exactly when they are the same level,
    or [LOG_ALL] and [LOG_ERRORS], or [LOG_OFF] and [LOG_TRACE]. *)
Theorem severity_label_collisions :
  forall a b : LoggingSeverityLevel,
    severity_label a = severity_label b <->
    (a = b \/
     (a = LOG_ALL /\ b = LOG_ERRORS) \/ (a = LOG_ERRORS /\ b = LOG_ALL) \/
     (a = LOG_OFF /\ b = LOG_TRACE) \/ (a = LOG_TRACE /\ b = LOG_OFF)).
Proof.
  intros a b. split.
  - destruct a, b; simpl; intros H;
      first [ left; reflexivity
            | discriminate H
            | right; left; split; reflexivity
            | right; right; left; split; reflexivity
            | right; right; right; left; split; reflexivity
            | right; right; right; right; split; reflexivity ].
  - intros [H | [[Ha Hb] | [[Ha Hb] | [[Ha Hb] | [Ha Hb]]]]];
      subst; reflexivity.
Qed.

Lemma fold_left_append (args : list string) :
  forall acc : string,
    fold_left String.append args acc = (acc ++ concat_args args)%string.
Proof.
  induction args as [|a rest IH]; intros acc; simpl.
  - now rewrite append_empty_r.
  - now rewrite IH, append_assoc.
Qed.

(** The variadic [print] streams its arguments in the order given: the line
    it buffers, when the level passes the threshold, is the prefix with the
    first argument put after it, then the second, and so on to the last;
    and the whole effect of the call is that of a [print] of the one string
    the arguments make, first to last. *)
Theorem print_streams_arguments_in_order :
  forall (now : string) (L : LoggingSeverityLevel) (args : list string)
         (s : Logger),
    log_buffer (print now L args s) =
      log_buffer s ++
      (if level_value L <=? level_value (severity_level s)
       then [fold_left String.append args
               (line_prefix now L (indentation s))]
       else []) /\
    print now L args s =
      print now L [fold_left String.append args ""%string] s.
Proof.
  intros now L args s. rewrite !print_effect, !fold_left_append.
  split.
  - destruct (level_value L <=? level_value (severity_level s)); simpl;
      [reflexivity | now rewrite app_nil_r].
  - unfold format_line. simpl. now rewrite append_empty_r.
Qed.

Lemma count_char_append (c : ascii) (a b : string) :
  count_char c (a ++ b)%string = (count_char c a + count_char c b)%nat.
Proof.
  induction a as [|x a IH]; simpl; [reflexivity|].
  destruct (Ascii.eqb x c); simpl; now rewrite IH.
Qed.

Lemma count_char_removed (c : ascii) (str : string) :
  count_char c (remove_char c str) = O.
Proof.
  induction str as [|x rest IH]; simpl; [reflexivity|].
  destruct (Ascii.eqb x c) eqn:E; simpl; [exact IH | now rewrite E].
Qed.

Lemma count_newline_sink_record (logline : string) :
  count_char newline (sink_record logline) = 1%nat.
Proof.
  unfold sink_record. rewrite count_char_append, count_char_removed.
  reflexivity.
Qed.

(** One line of output per record: the text a drain puts on the sink holds
    as many newlines as the buffer held lines, whatever newlines the lines
    held. *)
Theorem clear_backlog_one_newline_per_line :
  forall s : Logger,
    count_char newline (sink_text (new_events s (clear_backlog s))) =
    List.length (log_buffer s).
Proof.
  intros s.
  rewrite (new_events_app s (clear_backlog s)
             (map (write_event (writer s)) (log_buffer s)))
    by now rewrite clear_backlog_effect.
  rewrite sink_text_write_events.
  induction (log_buffer s) as [|l rest IH]; simpl; [reflexivity|].
  now rewrite count_char_append, count_newline_sink_record, IH.
Qed.

(** ** The threshold *)

(** While the threshold is [LOG_OFF] (as in a fresh logger, and again once
    the destructor has begun), [appendToLog] records nothing at any level:
    the logger is returned as it was. *)
Theorem appendToLog_off_threshold_is_noop :
  forall (now : string) (L : LoggingSeverityLevel) (message : string)
         (s : Logger),
    severity_level s = LOG_OFF ->
    appendToLog now L message s = s.
Proof.
  intros now L message s HT.
  destruct L; simpl; try reflexivity; rewrite print_effect, HT; reflexivity.
Qed.

Lemma appendToLog_off_threshold_is_noop_witness :
  let s := dtor_begin (setSeverityLevel LOG_ALL Logger_new) in
  appendToLog "12:00:00" LOG_ERRORS "late" s = s.
Proof.
  intros s.
  apply (appendToLog_off_threshold_is_noop "12:00:00" LOG_ERRORS "late" s).
  reflexivity.
Defined.

Lemma print_buffer_length (now : string) (L : LoggingSeverityLevel)
  (args : list string) (s : Logger) :
  List.length (log_buffer (print now L args s)) =
  (List.length (log_buffer s)
   + if (level_value L <=? level_value (severity_level s))%Z
     then 1 else 0)%nat.
Proof.
  rewrite print_effect.
  destruct (level_value L <=? level_value (severity_level s)); simpl.
  - now rewrite length_app.
  - lia.
Qed.

(** Under the threshold [LOG_ALL] a [print] of any level is buffered, and
    raising the threshold never loses a line: what is buffered under a
    threshold is buffered under every higher one. *)
Theorem print_threshold_monotone :
  forall (now : string) (L : LoggingSeverityLevel) (args : list string)
         (s : Logger),
    log_buffer (print now L args (setSeverityLevel LOG_ALL s)) =
      log_buffer s ++ [format_line now L (indentation s) args] /\
    forall T T' : LoggingSeverityLevel,
      level_value T <= level_value T' ->
      (List.length (log_buffer (print now L args (setSeverityLevel T s))) <=
       List.length (log_buffer (print now L args (setSeverityLevel T' s))))%nat.
Proof.
  intros now L args s. split.
  - rewrite print_effect. simpl.
    replace (level_value L <=? 6) with true; [reflexivity|].
    symmetry. apply Z.leb_le. apply (level_value_bounds L).
  - intros T T' HT. rewrite !print_buffer_length. simpl.
    destruct (Z.leb_spec (level_value L) (level_value T));
      destruct (Z.leb_spec (level_value L) (level_value T')); lia.
Qed.

Lemma print_threshold_monotone_witness :
  (List.length
     (log_buffer (print "12:00:00" LOG_INFO ["x"%string]
                    (setSeverityLevel LOG_ERRORS Logger_new))) <=
   List.length
     (log_buffer (print "12:00:00" LOG_INFO ["x"%string]
                    (setSeverityLevel LOG_FINE Logger_new))))%nat.
Proof.
  apply (print_threshold_monotone "12:00:00" LOG_INFO ["x"%string] Logger_new).
  simpl. lia.
Defined.

(** ** Producers do no input or output *)

Lemma print_new_events (now : string) (L : LoggingSeverityLevel)
  (args : list string) (s : Logger) :
  new_events s (print now L args s) =
  if level_value L <=? level_value (severity_level s)
  then [MutexLock; MutexUnlock] else [].
Proof.
  apply new_events_app. rewrite print_effect.
  destruct (level_value L <=? level_value (severity_level s)); simpl;
    [reflexivity | now rewrite app_nil_r].
Qed.

(** A call of a logging thread ([print], [appendToLog], entering or leaving
    a section, setting the threshold) touches the mutex and nothing else: it
    writes nothing on a sink, opens and closes no file, and leaves [writer]
    as it is.  The writing is the drains'. *)
Theorem producer_calls_do_no_io :
  forall (c : call) (s : Logger),
    is_producer_call c = true ->
    forallb is_mutex_event (new_events s (do_call c s)) = true /\
    writer (do_call c s) = writer s.
Proof.
  intros c s Hp.
  destruct c as [now L args | now L message | L
                | now1 now2 L title | now L | |]; cbn [do_call];
    try discriminate Hp.
  - rewrite print_new_events, print_effect.
    destruct (level_value L <=? level_value (severity_level s)); now split.
  - destruct L; cbn [appendToLog];
      rewrite ?new_events_same, ?print_new_events, ?print_effect;
      try (now split);
      match goal with
      | |- context [?a <=? ?b] => destruct (a <=? b); now split
      end.
  - split; [|reflexivity]. unfold new_events. simpl. now rewrite skipn_all.
  - rewrite (new_events_app s (LogSection_enter now1 now2 L title s)
               (if level_value L <=? level_value (severity_level s)
                then [MutexLock; MutexUnlock; MutexLock; MutexUnlock;
                      MutexLock; MutexUnlock]
                else [MutexLock; MutexUnlock])).
    + rewrite LogSection_enter_effect.
      destruct (level_value L <=? level_value (severity_level s)); now split.
    + rewrite LogSection_enter_effect.
      destruct (level_value L <=? level_value (severity_level s));
        reflexivity.
  - rewrite (new_events_app s (LogSection_exit now L s)
               (if level_value L <=? level_value (severity_level s)
                then [MutexLock; MutexUnlock; MutexLock; MutexUnlock]
                else [MutexLock; MutexUnlock])).
    + rewrite LogSection_exit_effect.
      destruct (level_value L <=? level_value (severity_level s)); now split.
    + rewrite LogSection_exit_effect.
      destruct (level_value L <=? level_value (severity_level s));
        reflexivity.
Qed.

Lemma producer_calls_do_no_io_witness :
  writer (do_call (CallPrint "12:00:00" LOG_INFO ["x"%string])
            (setFilename (fun _ => true) "malmo.log"
               (setSeverityLevel LOG_ALL Logger_new))) =
  Some "malmo.log"%string.
Proof.
  apply (producer_calls_do_no_io
           (CallPrint "12:00:00" LOG_INFO ["x"%string])
           (setFilename (fun _ => true) "malmo.log"
              (setSeverityLevel LOG_ALL Logger_new))).
  reflexivity.
Defined.

(** ** From the buffer to the sink *)

Lemma spool_iteration_effect (s : Logger) :
  spool_iteration s =
  mkLogger (severity_level s) (line_number s) (indentation s)
    (match log_buffer s with [] => write_guard s | _ :: _ => false end)
    [] (has_backend s) (is_spooling s) (writer s)
    (trace s ++
     Sleep 100 ::
     match log_buffer s with
     | [] => []
     | _ :: _ =>
         [MutexLock] ++ map (write_event (writer s)) (log_buffer s)
         ++ [MutexUnlock]
     end).
Proof.
  unfold spool_iteration, spool_drain. simpl.
  destruct (log_buffer s) as [|l rest] eqn:E.
  - unfold emit. rewrite E. reflexivity.
  - unfold unlock. rewrite clear_backlog_effect.
    unfold lock, emit, set_write_guard. simpl. rewrite E. simpl.
    rewrite <- !app_assoc. reflexivity.
Qed.

Lemma setFilename_effect (can_open : string -> bool) (file : string)
  (s : Logger) :
  setFilename can_open file s =
  mkLogger (severity_level s) (line_number s) (indentation s)
    (write_guard s) (log_buffer s) (has_backend s) (is_spooling s)
    (if can_open file then Some file else None)
    (trace s
     ++ match writer s with
        | Some old => [FileClose old]
        | None => []
        end
     ++ [FileOpenAppend file (can_open file)]).
Proof.
  unfold setFilename.
  destruct (writer s), (can_open file); unfold emit, set_writer; simpl;
    rewrite <- ?app_assoc; reflexivity.
Qed.

Lemma dtor_finish_effect (s : Logger) :
  dtor_finish s =
  mkLogger (severity_level s) (line_number s) (indentation s)
    (write_guard s) [] (has_backend s) (is_spooling s) None
    (trace s ++ map (write_event (writer s)) (log_buffer s)
     ++ [ThreadDetach]
     ++ match writer s with
        | Some path => [FileClose path]
        | None => []
        end).
Proof.
  unfold dtor_finish. rewrite clear_backlog_effect. simpl.
  destruct (writer s); unfold emit, set_writer; simpl;
    rewrite <- !app_assoc; reflexivity.
Qed.

Lemma written_records_step (s s' : Logger) (tr : list event) :
  trace s' = trace s ++ tr ->
  written_records s' =
  written_records s ++ map written_text (filter is_sink_write tr).
Proof.
  unfold written_records. intros ->. now rewrite filter_app, map_app.
Qed.

Lemma written_texts_of_write_events (w : option string) (lines : list string) :
  map written_text (filter is_sink_write (map (write_event w) lines)) =
  map sink_record lines.
Proof.
  induction lines as [|l rest IH]; simpl; [reflexivity|].
  replace (is_sink_write (write_event w l)) with true by now destruct w.
  simpl. now rewrite written_text_write_event, IH.
Qed.

Lemma filter_sink_write_app (a b : list event) :
  filter is_sink_write (a ++ b) =
  filter is_sink_write a ++ filter is_sink_write b.
Proof. apply filter_app. Qed.

Lemma pipeline_clear_backlog (s : Logger) :
  pipeline (clear_backlog s) = pipeline s.
Proof.
  unfold pipeline.
  rewrite (written_records_step s (clear_backlog s)
             (map (write_event (writer s)) (log_buffer s)))
    by now rewrite clear_backlog_effect.
  rewrite written_texts_of_write_events, clear_backlog_effect. simpl.
  now rewrite app_nil_r.
Qed.

Lemma pipeline_spool_iteration (s : Logger) :
  pipeline (spool_iteration s) = pipeline s.
Proof.
  unfold pipeline.
  rewrite (written_records_step s (spool_iteration s)
             (Sleep 100 ::
              match log_buffer s with
              | [] => []
              | _ :: _ =>
                  [MutexLock] ++ map (write_event (writer s)) (log_buffer s)
                  ++ [MutexUnlock]
              end))
    by now rewrite spool_iteration_effect.
  rewrite spool_iteration_effect. cbn [log_buffer map].
  rewrite app_nil_r.
  destruct (log_buffer s) as [|l rest] eqn:E; [reflexivity|].
  f_equal.
  change (map written_text
            (filter is_sink_write
               (map (write_event (writer s)) (l :: rest) ++ [MutexUnlock]))
          = map sink_record (l :: rest)).
  rewrite filter_sink_write_app, map_app, written_texts_of_write_events.
  simpl. now rewrite app_nil_r.
Qed.

Lemma pipeline_dtor_finish (s : Logger) :
  written_records (dtor_finish s) = pipeline s /\
  log_buffer (dtor_finish s) = [].
Proof.
  split; [|now rewrite dtor_finish_effect].
  rewrite (written_records_step s (dtor_finish s)
             (map (write_event (writer s)) (log_buffer s)
              ++ [ThreadDetach]
              ++ match writer s with
                 | Some path => [FileClose path]
                 | None => []
                 end))
    by now rewrite dtor_finish_effect.
  rewrite filter_sink_write_app, map_app, written_texts_of_write_events.
  unfold pipeline. f_equal.
  destruct (writer s); simpl; now rewrite app_nil_r.
Qed.

(** Draining changes nothing in the sequence of records written or waiting:
    a drain by the caller, an iteration of the spooler and the final flush
    of the destructor move the waiting lines, in order, to the end of the
    written ones; none is lost, doubled or moved.  After the final flush
    the sink holds them all and the buffer is empty. *)
Theorem drains_keep_the_pipeline :
  forall s : Logger,
    pipeline (clear_backlog s) = pipeline s /\
    pipeline (spool_iteration s) = pipeline s /\
    written_records (dtor_finish s) = pipeline s /\
    log_buffer (dtor_finish s) = [] /\
    clear_backlog (clear_backlog s) = clear_backlog s.
Proof.
  intros s.
  split; [apply pipeline_clear_backlog|].
  split; [apply pipeline_spool_iteration|].
  split; [apply pipeline_dtor_finish|].
  split; [apply pipeline_dtor_finish|].
  rewrite !clear_backlog_effect. simpl. now rewrite app_nil_r.
Qed.

(** ** Invariants of runs *)

Lemma preserves_compose (P : Logger -> Prop) (f g : Logger -> Logger) :
  preserves P f -> preserves P g -> preserves P (fun s => g (f s)).
Proof. intros Hf Hg s Hs. apply Hg, Hf, Hs. Qed.

(** An invariant of the six operations the calls are made of is an invariant
    of every call. *)
Lemma preserves_do_call (P : Logger -> Prop) :
  (forall now L args, preserves P (print now L args)) ->
  preserves P indent ->
  preserves P unindent ->
  preserves P clear_backlog ->
  preserves P spool_iteration ->
  (forall L, preserves P (setSeverityLevel L)) ->
  forall c : call, preserves P (do_call c).
Proof.
  intros Hprint Hin Hun Hclear Hspool Hsev c.
  destruct c as [now L args | now L message | L
                | now1 now2 L title | now L | |]; cbn [do_call].
  - apply Hprint.
  - destruct L; cbn [appendToLog]; try apply Hprint. intros s Hs. exact Hs.
  - apply Hsev.
  - unfold LogSection_enter. intros s Hs. apply Hin, Hprint, Hprint, Hs.
  - unfold LogSection_exit. intros s Hs. apply Hprint, Hun, Hs.
  - apply Hspool.
  - apply Hclear.
Qed.

Lemma preserves_run (P : Logger -> Prop) (can_open : string -> bool) :
  (forall c, preserves P (do_call c)) ->
  (forall file, preserves P (setFilename can_open file)) ->
  (forall L, preserves P (setSeverityLevel L)) ->
  forall acts : list action, preserves P (run can_open acts).
Proof.
  intros Hcall Hfile Hsev acts.
  induction acts as [|a rest IH]; intros s Hs; simpl; [exact Hs|].
  apply IH. destruct a as [c | file | file L]; simpl.
  - now apply Hcall.
  - now apply Hfile.
  - unfold setLogging. now apply Hsev, Hfile.
Qed.

Lemma pipeline_unchanged (s s' : Logger) (tr : list event) :
  trace s' = trace s ++ tr ->
  filter is_sink_write tr = [] ->
  log_buffer s' = log_buffer s ->
  pipeline s' = pipeline s.
Proof.
  intros Etr Hf Hb. unfold pipeline.
  rewrite (written_records_step s s' tr Etr), Hf, Hb. simpl.
  now rewrite app_nil_r.
Qed.

Lemma pipeline_print (now : string) (L : LoggingSeverityLevel)
  (args : list string) (s : Logger) :
  pipeline (print now L args s) =
  pipeline s ++
  (if level_value L <=? level_value (severity_level s)
   then [sink_record (format_line now L (indentation s) args)] else []).
Proof.
  rewrite print_effect.
  destruct (level_value L <=? level_value (severity_level s)).
  - unfold pipeline.
    rewrite (written_records_step s _ [MutexLock; MutexUnlock])
      by reflexivity.
    simpl. rewrite app_nil_r, map_app, app_assoc. reflexivity.
  - now rewrite app_nil_r.
Qed.

Lemma pipeline_indent (s : Logger) : pipeline (indent s) = pipeline s.
Proof.
  apply (pipeline_unchanged s (indent s) [MutexLock; MutexUnlock]);
    rewrite ?indent_effect; reflexivity.
Qed.

Lemma pipeline_unindent (s : Logger) : pipeline (unindent s) = pipeline s.
Proof.
  apply (pipeline_unchanged s (unindent s) [MutexLock; MutexUnlock]);
    rewrite ?unindent_effect; reflexivity.
Qed.

Lemma pipeline_setFilename (can_open : string -> bool) (file : string)
  (s : Logger) :
  pipeline (setFilename can_open file s) = pipeline s.
Proof.
  apply (pipeline_unchanged s (setFilename can_open file s)
           (match writer s with
            | Some old => [FileClose old]
            | None => []
            end ++ [FileOpenAppend file (can_open file)]));
    rewrite ?setFilename_effect; try reflexivity.
  now destruct (writer s).
Qed.

(** A [print] that passes the threshold puts its record at the end of the
    records written or waiting, and one that does not changes nothing; over
    any run of calls, drains and changes of sink or threshold, the records
    written or waiting at the start stay, in their order, at the front: the
    sequence only grows at its end. *)
Theorem pipeline_only_grows_at_the_end :
  forall (can_open : string -> bool) (s : Logger),
    (forall now L args,
       pipeline (print now L args s) =
       pipeline s ++
       (if level_value L <=? level_value (severity_level s)
        then [sink_record (format_line now L (indentation s) args)]
        else [])) /\
    forall acts : list action,
      exists added : list string,
        pipeline (run can_open acts s) = pipeline s ++ added.
Proof.
  intros can_open s. split; [intros; apply pipeline_print|].
  intros acts.
  apply (preserves_run
           (fun s' => exists added, pipeline s' = pipeline s ++ added)
           can_open).
  - apply preserves_do_call.
    + intros now L args s' [added E]. rewrite pipeline_print, E.
      eexists. now rewrite <- app_assoc.
    + intros s' [added E]. rewrite pipeline_indent. now exists added.
    + intros s' [added E]. rewrite pipeline_unindent. now exists added.
    + intros s' [added E]. rewrite pipeline_clear_backlog. now exists added.
    + intros s' [added E]. rewrite pipeline_spool_iteration.
      now exists added.
    + intros L s' [added E]. now exists added.
  - intros file s' [added E]. rewrite pipeline_setFilename. now exists added.
  - intros L s' [added E]. now exists added.
  - exists []. now rewrite app_nil_r.
Qed.

(** ** The file handle and the mutex over a run *)

Lemma sink_ok_app (a b : list event) :
  forall open : option string,
    sink_ok open (a ++ b) =
    match sink_ok open a with
    | Some open' => sink_ok open' b
    | None => None
    end.
Proof.
  induction a as [|e a IH]; intros open; simpl; [reflexivity|].
  destruct e; try apply IH; destruct open as [p|]; try reflexivity;
    try apply IH; destruct (String.eqb p path); try reflexivity; apply IH.
Qed.

Lemma sink_ok_write_events (w : option string) (lines : list string) :
  sink_ok w (map (write_event w) lines) = Some w.
Proof.
  induction lines as [|l rest IH]; simpl; [reflexivity|].
  destruct w as [p|]; simpl; [|exact IH].
  rewrite String.eqb_refl. exact IH.
Qed.

Lemma sink_wf_step (s s' : Logger) (tr : list event) :
  sink_wf s ->
  trace s' = trace s ++ tr ->
  sink_ok (writer s) tr = Some (writer s') ->
  sink_wf s'.
Proof.
  unfold sink_wf. intros Hs Etr Htr. now rewrite Etr, sink_ok_app, Hs.
Qed.

Lemma sink_wf_print (now : string) (L : LoggingSeverityLevel)
  (args : list string) : preserves sink_wf (print now L args).
Proof.
  intros s Hs. rewrite print_effect.
  destruct (level_value L <=? level_value (severity_level s)); [|exact Hs].
  now apply (sink_wf_step s _ [MutexLock; MutexUnlock]).
Qed.

Lemma sink_wf_clear_backlog : preserves sink_wf clear_backlog.
Proof.
  intros s Hs. rewrite clear_backlog_effect.
  apply (sink_wf_step s _ (map (write_event (writer s)) (log_buffer s)));
    [exact Hs | reflexivity | apply sink_ok_write_events].
Qed.

Lemma sink_wf_spool_iteration : preserves sink_wf spool_iteration.
Proof.
  intros s Hs. rewrite spool_iteration_effect.
  eapply (sink_wf_step s); [exact Hs | reflexivity |].
  cbn [writer]. destruct (log_buffer s) as [|l rest]; [reflexivity|].
  change (sink_ok (writer s)
            (map (write_event (writer s)) (l :: rest) ++ [MutexUnlock])
          = Some (writer s)).
  now rewrite sink_ok_app, sink_ok_write_events.
Qed.

Lemma sink_wf_setFilename (can_open : string -> bool) (file : string) :
  preserves sink_wf (setFilename can_open file).
Proof.
  intros s Hs. rewrite setFilename_effect.
  eapply (sink_wf_step s); [exact Hs | reflexivity |].
  cbn [writer]. destruct (writer s) as [p|]; simpl;
    rewrite ?String.eqb_refl; reflexivity.
Qed.

Lemma sink_wf_dtor_finish (s : Logger) :
  sink_wf s -> sink_ok None (trace (dtor_finish s)) = Some None.
Proof.
  intros Hs. rewrite dtor_finish_effect. cbn [trace].
  unfold sink_wf in Hs.
  rewrite sink_ok_app, Hs, sink_ok_app, sink_ok_write_events.
  destruct (writer s) as [p|]; simpl; rewrite ?String.eqb_refl; reflexivity.
Qed.

(** The logger has at most one file open and uses no other sink while it
    is open.  Over any run on a fresh logger, closed by the final part of the
    destructor: a file is opened only when none is open, a write goes to
    the file that is open, or to the console when none is, a close is of the
    file that is open, and at the end no file is left open. *)
Theorem file_handle_discipline :
  forall (can_open : string -> bool) (acts : list action),
    sink_ok None (trace (run can_open acts Logger_new)) =
      Some (writer (run can_open acts Logger_new)) /\
    sink_ok None (trace (dtor_finish (run can_open acts Logger_new))) =
      Some None.
Proof.
  intros can_open acts.
  assert (H : sink_wf (run can_open acts Logger_new)).
  { apply (preserves_run sink_wf can_open).
    - apply preserves_do_call.
      + apply sink_wf_print.
      + intros s Hs. rewrite indent_effect.
        now apply (sink_wf_step s _ [MutexLock; MutexUnlock]).
      + intros s Hs. rewrite unindent_effect.
        now apply (sink_wf_step s _ [MutexLock; MutexUnlock]).
      + apply sink_wf_clear_backlog.
      + apply sink_wf_spool_iteration.
      + intros L s Hs. exact Hs.
    - apply sink_wf_setFilename.
    - intros L s Hs. exact Hs.
    - reflexivity. }
  split; [exact H | now apply sink_wf_dtor_finish].
Qed.

Lemma mutex_ok_app (a b : list event) :
  forall held : bool,
    mutex_ok held (a ++ b) =
    match mutex_ok held a with
    | Some held' => mutex_ok held' b
    | None => None
    end.
Proof.
  induction a as [|e a IH]; intros held; simpl; [reflexivity|].
  destruct e; try apply IH; try destruct acquired; destruct held;
    try reflexivity; apply IH.
Qed.

Lemma mutex_ok_write_events (w : option string) (lines : list string)
  (held : bool) :
  mutex_ok held (map (write_event w) lines) = Some held.
Proof.
  induction lines as [|l rest IH]; simpl; [reflexivity|].
  destruct w; simpl; exact IH.
Qed.

Lemma mutex_wf_step (s s' : Logger) (tr : list event) :
  mutex_wf s ->
  trace s' = trace s ++ tr ->
  mutex_ok false tr = Some false ->
  write_guard s' = false ->
  mutex_wf s'.
Proof.
  unfold mutex_wf. intros [Hs _] Etr Htr Hg. split; [|exact Hg].
  now rewrite Etr, mutex_ok_app, Hs.
Qed.

(** The mutex is never locked twice nor unlocked when free.  Over any run
    on a fresh logger the [lock] and [unlock] calls alternate, starting
    with a [lock], and every call returns with the mutex free; the final
    part of the destructor adds no mutex call. *)
Theorem mutex_discipline :
  forall (can_open : string -> bool) (acts : list action),
    let s := run can_open acts Logger_new in
    mutex_ok false (trace s) = Some false /\
    write_guard s = false /\
    mutex_ok false (trace (dtor_finish s)) = Some false.
Proof.
  intros can_open acts s.
  assert (H : mutex_wf s).
  { subst s. apply (preserves_run mutex_wf can_open).
    - apply preserves_do_call.
      + intros now L args s Hs. rewrite print_effect.
        destruct (level_value L <=? level_value (severity_level s));
          [|exact Hs].
        now apply (mutex_wf_step s _ [MutexLock; MutexUnlock]).
      + intros s Hs. rewrite indent_effect.
        now apply (mutex_wf_step s _ [MutexLock; MutexUnlock]).
      + intros s Hs. rewrite unindent_effect.
        now apply (mutex_wf_step s _ [MutexLock; MutexUnlock]).
      + intros s Hs. rewrite clear_backlog_effect.
        apply (mutex_wf_step s _ (map (write_event (writer s)) (log_buffer s)));
          [exact Hs | reflexivity | apply mutex_ok_write_events
          | apply Hs].
      + intros s Hs. rewrite spool_iteration_effect.
        eapply (mutex_wf_step s); [exact Hs | reflexivity | |].
        * destruct (log_buffer s) as [|l rest]; [reflexivity|].
          change (mutex_ok true
                    (map (write_event (writer s)) (l :: rest)
                     ++ [MutexUnlock])
                  = Some false).
          now rewrite mutex_ok_app, mutex_ok_write_events.
        * cbn [write_guard]. destruct (log_buffer s); [apply Hs|reflexivity].
      + intros L s Hs. exact Hs.
    - intros file s Hs. rewrite setFilename_effect.
      eapply (mutex_wf_step s); [exact Hs | reflexivity | | apply Hs].
      now destruct (writer s).
    - intros L s Hs. exact Hs.
    - split; reflexivity. }
  destruct H as [H1 H2]. split; [exact H1|]. split; [exact H2|].
  rewrite dtor_finish_effect. cbn [trace].
  rewrite mutex_ok_app, H1, mutex_ok_app, mutex_ok_write_events.
  now destruct (writer s).
Qed.

(** ** The depth over a run of calls *)

Lemma wrap_int_range (z : Z) : in_int_range (wrap_int z).
Proof.
  unfold in_int_range, int_min, int_max, wrap_int.
  pose proof (Z.mod_pos_bound (z + 2 ^ 31) (2 ^ 32)) as H. lia.
Qed.

Lemma indentation_print (now : string) (L : LoggingSeverityLevel)
  (args : list string) (s : Logger) :
  indentation (print now L args s) = indentation s.
Proof.
  rewrite print_effect.
  now destruct (level_value L <=? level_value (severity_level s)).
Qed.

Lemma indentation_do_call (c : call) (s : Logger) :
  indentation (do_call c s) =
  match c with
  | CallEnterSection _ _ _ _ => wrap_int (indentation s + 1)
  | CallExitSection _ _ => wrap_int (indentation s + -1)
  | _ => indentation s
  end.
Proof.
  destruct c as [now L args | now L message | L
                | now1 now2 L title | now L | |]; cbn [do_call].
  - apply indentation_print.
  - destruct L; cbn [appendToLog]; try apply indentation_print. reflexivity.
  - reflexivity.
  - rewrite LogSection_enter_effect.
    now destruct (level_value L <=? level_value (severity_level s)).
  - rewrite LogSection_exit_effect.
    now destruct (level_value L <=? level_value (severity_level s)).
  - now rewrite spool_iteration_effect.
  - now rewrite clear_backlog_effect.
Qed.

Lemma indentation_do_calls (cs : list call) :
  forall s : Logger,
    in_int_range (indentation s) ->
    indentation (do_calls cs s) =
    wrap_int (indentation s + section_balance cs).
Proof.
  induction cs as [|c rest IH]; intros s Hr.
  - cbn [do_calls section_balance].
    rewrite Z.add_0_r. symmetry. now apply wrap_int_id.
  - pose proof (indentation_do_call c s) as Hc.
    cbn [do_calls]. rewrite IH.
    + destruct c; cbn [section_balance]; rewrite Hc; try reflexivity;
        rewrite wrap_int_add; f_equal; lia.
    + destruct c; rewrite Hc; try exact Hr; apply wrap_int_range.
Qed.

(** The depth is the sections entered less the sections left: after any run
    of calls it is the depth at the start plus that balance, as an [int];
    the calls that are not a section's leave it alone, and a run that leaves
    every section it enters as often as it enters it restores the depth.
    The tracker keeps no stack: an exit without an enter takes the depth
    below zero. *)
Theorem depth_is_enters_less_exits :
  forall (cs : list call) (s : Logger),
    in_int_range (indentation s) ->
    indentation (do_calls cs s) =
      wrap_int (indentation s + section_balance cs) /\
    (section_balance cs = 0 ->
     indentation (do_calls cs s) = indentation s).
Proof.
  intros cs s Hr. split; [now apply indentation_do_calls|].
  intros Hb. rewrite indentation_do_calls, Hb, Z.add_0_r by exact Hr.
  now apply wrap_int_id.
Qed.

Lemma depth_is_enters_less_exits_witness :
  indentation
    (do_calls [CallExitSection "12:00:00" LOG_INFO] Logger_new) = -1.
Proof.
  apply (depth_is_enters_less_exits
           [CallExitSection "12:00:00" LOG_INFO] Logger_new).
  split; discriminate.
Defined.

(** ** The spooler's way out *)







Lemma push_lines_nil (s : Logger) : push_lines [] s = s.
Proof.
  unfold push_lines, set_log_buffer. rewrite app_nil_r. now destruct s.
Qed.

(** The turns of [spool_loop] are the turns in which the other threads act
    during the sleep only. *)
Lemma spool_loop_as_rounds (rounds : list (list string * bool)) :
  forall s : Logger,
    spool_loop rounds s = spool_loop_rounds (map sleep_round rounds) s.
Proof.
  induction rounds as [|[lines stop] rest IH]; intros s; [reflexivity|].
  cbn [spool_loop map spool_loop_rounds].
  assert (E : spool_round_end (sleep_round (lines, stop)) s =
              spool_drain
                (if stop
                 then dtor_begin
                        (set_log_buffer
                           (log_buffer (emit (Sleep 100) s) ++ lines)
                           (emit (Sleep 100) s))
                 else set_log_buffer
                        (log_buffer (emit (Sleep 100) s) ++ lines)
                        (emit (Sleep 100) s))).
  { unfold spool_round_end, sleep_round.
    cbn [pushed_before stop_before pushed_after stop_after fst snd].
    now rewrite push_lines_nil. }
  rewrite E, IH. reflexivity.
Qed.



(** ** The wait of the destructor *)

Lemma dtor_wait_first (start : Z) (backend_at : nat -> bool)
  (clock_at : nat -> Z) (fuel : nat) :
  forall k0 m : nat,
    dtor_wait fuel start backend_at clock_at k0 = Some m <->
    ((k0 <= m < k0 + fuel)%nat /\
     keep_waiting start (backend_at m) (clock_at m) = false /\
     forall k : nat,
       (k0 <= k < m)%nat ->
       keep_waiting start (backend_at k) (clock_at k) = true).
Proof.
  induction fuel as [|fuel IH]; intros k0 m; simpl.
  - split; [discriminate | intros [H _]; lia].
  - destruct (keep_waiting start (backend_at k0) (clock_at k0)) eqn:E.
    + rewrite IH. split.
      * intros (Hm & Hf & Ht). split; [lia|]. split; [exact Hf|].
        intros k Hk. destruct (Nat.eq_dec k k0) as [-> | Hne];
          [exact E | apply Ht; lia].
      * intros (Hm & Hf & Ht).
        assert (m <> k0) by (intros ->; congruence).
        split; [lia|]. split; [exact Hf|]. intros k Hk. apply Ht. lia.
    + split.
      * intros [= <-]. split; [lia|]. split; [exact E|]. intros k Hk. lia.
      * intros (Hm & Hf & Ht). f_equal.
        destruct (Nat.eq_dec m k0) as [-> | Hne]; [reflexivity|].
        assert (Hk : keep_waiting start (backend_at k0) (clock_at k0) = true)
          by (apply Ht; lia).
        congruence.
Qed.

(** The wait of [~Logger] ends at the first poll, and at no other, that
    reads [has_backend] false or a clock two ticks or more past the start;
    it goes on as long as the polls read [has_backend] true and less than
    two ticks. *)
Theorem dtor_wait_ends_at_first_false_poll :
  forall (fuel : nat) (start : Z) (backend_at : nat -> bool)
         (clock_at : nat -> Z) (m : nat),
    dtor_wait fuel start backend_at clock_at 0 = Some m <->
    ((m < fuel)%nat /\
     (backend_at m = false \/ 2 <= clock_at m - start) /\
     forall k : nat,
       (k < m)%nat -> backend_at k = true /\ clock_at k - start < 2).
Proof.
  intros fuel start backend_at clock_at m.
  rewrite dtor_wait_first. unfold keep_waiting. split.
  - intros (Hm & Hf & Ht). split; [lia|]. split.
    + apply andb_false_iff in Hf as [Hf | Hf]; [now left | right].
      apply Z.ltb_ge in Hf. exact Hf.
    + intros k Hk. specialize (Ht k ltac:(lia)).
      apply andb_true_iff in Ht as [Hb Hc]. split; [exact Hb|].
      now apply Z.ltb_lt.
  - intros (Hm & Hf & Ht). split; [lia|]. split.
    + apply andb_false_iff. destruct Hf as [Hf | Hf]; [now left | right].
      now apply Z.ltb_ge.
    + intros k Hk. destruct (Ht k ltac:(lia)) as [Hb Hc].
      apply andb_true_iff. split; [exact Hb | now apply Z.ltb_lt].
Qed.

(** ** The lifetime tracker *)

Lemma object_count_do_tracker_op (o : tracker_op) (p : Process) :
  object_count (do_tracker_op o p) =
  match o with
  | TrackerDelete _ _ => wrap_int (object_count p + -1)
  | _ => wrap_int (object_count p + 1)
  end.
Proof. now destruct o. Qed.

(** [object_count] is the objects made, by construction or by copy, less
    the objects destroyed: after any run of the tracker's operations it is
    the count at the start plus that number, as an [int]. *)
Theorem tracker_counts_live_objects :
  forall (os : list tracker_op) (p : Process),
    in_int_range (object_count p) ->
    object_count (do_tracker_ops os p) =
    wrap_int (object_count p + live_objects os).
Proof.
  induction os as [|o rest IH]; intros p Hr.
  - cbn [do_tracker_ops live_objects]. rewrite Z.add_0_r.
    symmetry. now apply wrap_int_id.
  - cbn [do_tracker_ops]. rewrite IH.
    + rewrite object_count_do_tracker_op.
      destruct o; cbn [live_objects]; rewrite wrap_int_add; f_equal; lia.
    + rewrite object_count_do_tracker_op. destruct o; apply wrap_int_range.
Qed.

Lemma tracker_counts_live_objects_witness :
  object_count
    (do_tracker_ops
       [TrackerNew "12:00:00" "AgentHost"; TrackerCopy "12:00:01" "AgentHost";
        TrackerDelete "12:00:02" "AgentHost"]
       (mkProcess 0 Logger_new)) = 1.
Proof.
  apply (tracker_counts_live_objects
           [TrackerNew "12:00:00" "AgentHost";
            TrackerCopy "12:00:01" "AgentHost";
            TrackerDelete "12:00:02" "AgentHost"]
           (mkProcess 0 Logger_new)).
  split; discriminate.
Defined.

(** The tracker logs at [LOG_FINE].  Under a threshold below it no run of
    its operations touches the logger; from [LOG_FINE] up, a construction
    and a destruction each buffer one line, which names the object and
    gives [object_count] as the operation leaves it. *)
Theorem tracker_logs_the_new_count :
  forall (now name : string) (p : Process),
    (level_value (severity_level (the_logger p)) < level_value LOG_FINE ->
     forall os : list tracker_op,
       the_logger (do_tracker_ops os p) = the_logger p) /\
    (level_value LOG_FINE <= level_value (severity_level (the_logger p)) ->
     log_buffer (the_logger (addref now name p)) =
       log_buffer (the_logger p) ++
       [format_line now LOG_FINE (indentation (the_logger p))
          ["Constructing "%string; name; " (object count now "%string;
           int_text (object_count (addref now name p)); ")"%string]] /\
     log_buffer (the_logger (release now name p)) =
       log_buffer (the_logger p) ++
       [format_line now LOG_FINE (indentation (the_logger p))
          ["Destructing "%string; name; " (object count now "%string;
           int_text (object_count (release now name p)); ")"%string]]).
Proof.
  intros now name p. split.
  - intros Hlow os. revert p Hlow.
    induction os as [|o rest IH]; intros p Hlow; [reflexivity|].
    cbn [do_tracker_ops].
    assert (E : the_logger (do_tracker_op o p) = the_logger p).
    { destruct o; cbn [do_tracker_op addref release the_logger];
        rewrite print_effect;
        replace (level_value LOG_FINE
                 <=? level_value (severity_level (the_logger p)))
          with false; try reflexivity;
        symmetry; apply Z.leb_gt; exact Hlow. }
    rewrite IH; [exact E | now rewrite E].
  - intros Hhigh. apply Z.leb_le in Hhigh.
    cbn [addref release the_logger object_count].
    rewrite !print_effect, Hhigh. split; reflexivity.
Qed.

Lemma tracker_logs_the_new_count_witness :
  log_buffer
    (the_logger
       (addref "12:00:00" "AgentHost"
          (mkProcess 0 (setSeverityLevel LOG_FINE Logger_new)))) =
  ["12:00:00 P FINE    Constructing AgentHost (object count now 1)"%string].
Proof.
  apply (tracker_logs_the_new_count "12:00:00" "AgentHost"
           (mkProcess 0 (setSeverityLevel LOG_FINE Logger_new))).
  simpl. lia.
Defined.
